(** * An expiring in-memory cache (cache.go): model and verified properties

    The development follows the layout of [cache.go]:
    fixed-width numbers and interface values, [Item], the [cache] record and
    its methods, the janitor goroutine and the constructors.  The theorems
    come after the definitions.

    Conventions of the embedding.
    - [time.Duration] and the result of [time.Now().UnixNano()] are [int64]:
      they are integers of [Z], and the one place where the source computes
      with them ([time.Now().Add(d).UnixNano()]) has its wrap-around written
      out.
    - Every call of [time.Now()] in the source is an explicit argument of the
      method that makes it: the clock is an input, never a constant.
    - [map[string]Item[T]] is a [gmap string (Item T)].
    - A method with receiver [c *cache[T]] is a function from the state of
      the receiver to its state after the call, paired with the results.
      The mutex is not represented: each method is one atomic step.
    - A call of the eviction callback is an observable event; the methods
      that call it return the list of the calls they made, in order. *)

From Stdlib Require Import ZArith Lia SpecFloat.
From stdpp Require Import gmap strings list fin_maps.

Local Open Scope Z_scope.

(** ** Fixed-width numbers *)

Module Num.

(** Two's complement wrap-around of Go's fixed-width arithmetic. *)
Definition wrap_unsigned (w z : Z) : Z := z mod 2 ^ w.
Definition wrap_signed (w z : Z) : Z :=
  (z + 2 ^ (w - 1)) mod 2 ^ w - 2 ^ (w - 1).

(** The integer types of the increment family.  [int], [uint] and
    [uintptr] have the width of a 64-bit platform. *)
Inductive intkind :=
| Kint | Kint8 | Kint16 | Kint32 | Kint64
| Kuint | Kuintptr | Kuint8 | Kuint16 | Kuint32 | Kuint64.

#[global] Instance intkind_eq_dec : EqDecision intkind.
Proof. solve_decision. Defined.

Definition bits (k : intkind) : Z :=
  match k with
  | Kint | Kint64 | Kuint | Kuintptr | Kuint64 => 64
  | Kint8 | Kuint8 => 8
  | Kint16 | Kuint16 => 16
  | Kint32 | Kuint32 => 32
  end.

Definition signed (k : intkind) : bool :=
  match k with
  | Kint | Kint8 | Kint16 | Kint32 | Kint64 => true
  | _ => false
  end.

Definition wrap (k : intkind) (z : Z) : Z :=
  if signed k then wrap_signed (bits k) z else wrap_unsigned (bits k) z.

(** The values of the type: what [wrap] leaves alone. *)
Definition in_range (k : intkind) (z : Z) : Prop :=
  if signed k then - 2 ^ (bits k - 1) <= z < 2 ^ (bits k - 1)
  else 0 <= z < 2 ^ bits k.

(** [rv + n] and [rv - n] on a fixed-width integer type. *)
Definition add (k : intkind) (a b : Z) : Z := wrap k (a + b).
Definition sub (k : intkind) (a b : Z) : Z := wrap k (a - b).

Definition name (k : intkind) : string :=
  match k with
  | Kint => "int" | Kint8 => "int8" | Kint16 => "int16"
  | Kint32 => "int32" | Kint64 => "int64"
  | Kuint => "uint" | Kuintptr => "uintptr" | Kuint8 => "uint8"
  | Kuint16 => "uint16" | Kuint32 => "uint32" | Kuint64 => "uint64"
  end.

(** IEEE 754 binary32 and binary64 addition, round to nearest even. *)
Definition add32 (a b : spec_float) : spec_float := SFadd 24 128 a b.
Definition add64 (a b : spec_float) : spec_float := SFadd 53 1024 a b.

Definition is_int64 (z : Z) : Prop := - 2 ^ 63 <= z < 2 ^ 63.

(** IEEE 754 subtraction, and the conversions [float32(n)] and
    [float64(n)] of an integer, rounded to nearest even. *)
Definition sub32 (a b : spec_float) : spec_float := SFsub 24 128 a b.
Definition sub64 (a b : spec_float) : spec_float := SFsub 53 1024 a b.
Definition toFloat32 (n : Z) : spec_float := binary_normalize 24 128 n 0 false.
Definition toFloat64 (n : Z) : spec_float := binary_normalize 53 1024 n 0 false.

End Num.

(** ** Interface values

    [any(x)] pairs a dynamic type with a value.  The cache inspects the
    dynamic type only in the increment family, and only for the numeric
    types; a value of any other type is carried around untouched. *)

Inductive dyn :=
| DNil
| DInt (k : Num.intkind) (z : Z)
| DFloat32 (f : spec_float)
| DFloat64 (f : spec_float)
| DString (s : string)
| DOther (ty : string).

Inductive gotype :=
| TInt (k : Num.intkind) | TFloat32 | TFloat64 | TString | TOther (ty : string).

Definition dynType (d : dyn) : option gotype :=
  match d with
  | DNil => None
  | DInt k _ => Some (TInt k)
  | DFloat32 _ => Some TFloat32
  | DFloat64 _ => Some TFloat64
  | DString _ => Some TString
  | DOther ty => Some (TOther ty)
  end.

Definition numeric (d : dyn) : bool :=
  match d with
  | DInt _ _ | DFloat32 _ | DFloat64 _ => true
  | _ => false
  end.

(** The type assertions [any(v.Object).(int)], [.(int8)], ... *)
Definition asInt (k : Num.intkind) (d : dyn) : option Z :=
  match d with
  | DInt k' z => if decide (k' = k) then Some z else None
  | _ => None
  end.

Definition asFloat32 (d : dyn) : option spec_float :=
  match d with DFloat32 f => Some f | _ => None end.

Definition asFloat64 (d : dyn) : option spec_float :=
  match d with DFloat64 f => Some f | _ => None end.

(** The type parameter [T any] of the cache: a type with its zero value,
    its conversion to an interface value, and the assertion [v.(T)] back.
    [assert_numeric] is the typing fact the increment family relies on:
    a numeric value whose dynamic type is that of a value held in a [T]
    can be stored in a [T]. *)
Class GoType (T : Type) := {
  zero : T;
  to_any : T -> dyn;
  assertT : dyn -> option T;
  assert_numeric : forall (x : T) (d : dyn),
    numeric d = true -> dynType d = dynType (to_any x) ->
    exists y, assertT d = Some y /\ to_any y = d
}.

(** ** Items *)

(** [type Item[T any] struct { Object T; Expiration int64 }].
    [Expiration] is an absolute instant in Unix nanoseconds; 0 stands for
    no expiration. *)
Record Item (T : Type) := mkItem { Object : T; Expiration : Z }.
Arguments mkItem {T} _ _.
Arguments Object {T} _.
Arguments Expiration {T} _.

(** [func (item *Item[T]) Expired() bool]; [now] is the reading of
    [time.Now().UnixNano()], taken only when [Expiration] is not 0. *)
Definition Item_Expired {T} (item : Item T) (now : Z) : bool :=
  if Expiration item =? 0 then false else now >? Expiration item.

(** [func (item *Item[T]) SetValue(v any)]: a type switch with the single
    case [T]; a value of another type leaves the item as it is. *)
Definition Item_SetValue `{GoType T} (item : Item T) (v : dyn) : Item T :=
  match assertT v with
  | Some val => mkItem val (Expiration item)
  | None => item
  end.

(** The test that [Get], [get], [DeleteExpired] and [Items] inline:
    [item.Expiration > 0 && now > item.Expiration]. *)
Definition expiredInline {T} (item : Item T) (now : Z) : bool :=
  (Expiration item >? 0) && (now >? Expiration item).

Definition NoExpiration : Z := -1.
Definition DefaultExpiration : Z := 0.

(** [time.Now().Add(d).UnixNano()] at clock reading [now]: the sum in
    64-bit two's complement, which is what [UnixNano] returns when the
    instant is outside the years an [int64] of nanoseconds can hold. *)
Definition UnixNano_after (now d : Z) : Z := Num.wrap_signed 64 (now + d).

(** Errors are the messages of [fmt.Errorf]. *)
Definition error := string.
Definition errAlreadyExists (k : string) : error :=
  "item " +:+ k +:+ " already exists".
Definition errDoesntExist (k : string) : error :=
  "item " +:+ k +:+ " doesn't exist".
Definition errNotFound (k : string) : error :=
  "item " +:+ k +:+ " not found".
Definition errNotAn (k ty : string) : error :=
  "the value for " +:+ k +:+ " is not an " +:+ ty.

(** ** The cache *)

(** [type janitor[T any] struct { Interval time.Duration; stop chan bool }];
    the channel is represented by the [Stop] event of the janitor loop. *)
Record janitorT := mkJanitor { Interval : Z }.

(** [type cache[T any] struct]; [Callback] is the type of the function
    values [func(string, T)], [None] is the nil function. *)
Record cache (T Callback : Type) := mkCache {
  defaultExpiration : Z;
  items : gmap string (Item T);
  onEvicted : option Callback;
  janitor : option janitorT
}.
Arguments mkCache {T Callback} _ _ _ _.
Arguments defaultExpiration {T Callback} _.
Arguments items {T Callback} _.
Arguments onEvicted {T Callback} _.
Arguments janitor {T Callback} _.

(** One call [f(k, v)] of an eviction callback. *)
Inductive call (T Callback : Type) :=
| Call (f : Callback) (k : string) (v : T).
Arguments Call {T Callback} _ _ _.

Section Store.
Context {T : Type} `{GT : GoType T} {Callback : Type}.

Local Abbreviation cacheT := (cache T Callback).
Local Abbreviation callT := (call T Callback).

Definition with_items (c : cacheT) (m : gmap string (Item T)) : cacheT :=
  mkCache (defaultExpiration c) m (onEvicted c) (janitor c).

Definition with_onEvicted (c : cacheT) (f : option Callback) : cacheT :=
  mkCache (defaultExpiration c) (items c) f (janitor c).

Definition with_janitor (c : cacheT) (j : option janitorT) : cacheT :=
  mkCache (defaultExpiration c) (items c) (onEvicted c) j.

(** The duration in effect after the first [if] of [Set] and [set]:
    [if d == DefaultExpiration { d = c.defaultExpiration }]. *)
Definition effectiveDuration (c : cacheT) (d : Z) : Z :=
  if d =? DefaultExpiration then defaultExpiration c else d.

(** [func (c *cache[T]) Set(k string, x T, d time.Duration)] *)
Definition cache_Set (c : cacheT) (now : Z) (k : string) (x : T) (d : Z)
  : cacheT :=
  let d := if d =? DefaultExpiration then defaultExpiration c else d in
  let e := if d >? 0 then UnixNano_after now d else 0 in
  with_items c (<[k := mkItem x e]> (items c)).

(** [func (c *cache[T]) set(k string, x T, d time.Duration)] *)
Definition cache_set (c : cacheT) (now : Z) (k : string) (x : T) (d : Z)
  : cacheT :=
  let d := if d =? DefaultExpiration then defaultExpiration c else d in
  let e := if d >? 0 then UnixNano_after now d else 0 in
  with_items c (<[k := mkItem x e]> (items c)).

(** [func (c *cache[T]) SetDefault(k string, x T)] *)
Definition cache_SetDefault (c : cacheT) (now : Z) (k : string) (x : T)
  : cacheT :=
  cache_Set c now k x DefaultExpiration.

(** [func (c *cache[T]) Get(k string) (T, bool)] *)
Definition cache_Get (c : cacheT) (now : Z) (k : string)
  : cacheT * (T * bool) :=
  match items c !! k with
  | None => (c, (zero, false))
  | Some item =>
      if Expiration item >? 0 then
        if now >? Expiration item then (c, (zero, false))
        else (c, (Object item, true))
      else (c, (Object item, true))
  end.

(** [func (c *cache[T]) get(k string) (interface{}, bool)] *)
Definition cache_get (c : cacheT) (now : Z) (k : string)
  : cacheT * (dyn * bool) :=
  match items c !! k with
  | None => (c, (DNil, false))
  | Some item =>
      if Expiration item >? 0 then
        if now >? Expiration item then (c, (DNil, false))
        else (c, (to_any (Object item), true))
      else (c, (to_any (Object item), true))
  end.

(** [func (c *cache[T]) Add(k string, x T, d time.Duration) error];
    [now] is the clock as [get] reads it, [now'] as [set] reads it. *)
Definition cache_Add (c : cacheT) (now now' : Z) (k : string) (x : T) (d : Z)
  : cacheT * option error :=
  let '(c1, (_, found)) := cache_get c now k in
  if found then (c1, Some (errAlreadyExists k))
  else (cache_set c1 now' k x d, None).

(** [func (c *cache[T]) Replace(k string, x T, d time.Duration) error] *)
Definition cache_Replace (c : cacheT) (now now' : Z) (k : string) (x : T)
  (d : Z) : cacheT * option error :=
  let '(c1, (_, found)) := cache_get c now k in
  if negb found then (c1, Some (errDoesntExist k))
  else (cache_set c1 now' k x d, None).

(** The body shared by the typed increments [IncrementInt], ...,
    [IncrementFloat64], which differ in the asserted type only:
    [assertion] is [any(v.Object).(A)], [inj] the conversion of the new
    value to the [any] that [SetValue] takes, [plus] is [rv + n]. *)
Definition incrementTyped {A : Type} (assertion : dyn -> option A)
  (inj : A -> dyn) (plus : A -> A -> A) (zeroA : A) (ty : string)
  (c : cacheT) (now : Z) (k : string) (n : A)
  : cacheT * (A * option error) :=
  match items c !! k with
  | None => (c, (zeroA, Some (errNotFound k)))
  | Some v =>
      if Item_Expired v now then (c, (zeroA, Some (errNotFound k)))
      else
        match assertion (to_any (Object v)) with
        | None => (c, (zeroA, Some (errNotAn k ty)))
        | Some rv =>
            let nv := plus rv n in
            let v := Item_SetValue v (inj nv) in
            (with_items c (<[k := v]> (items c)), (nv, None))
        end
  end.

Definition incrementInteger (ik : Num.intkind) :=
  incrementTyped (asInt ik) (DInt ik) (Num.add ik) 0 (Num.name ik).

Definition cache_IncrementInt := incrementInteger Num.Kint.
Definition cache_IncrementInt8 := incrementInteger Num.Kint8.
Definition cache_IncrementInt16 := incrementInteger Num.Kint16.
Definition cache_IncrementInt32 := incrementInteger Num.Kint32.
Definition cache_IncrementInt64 := incrementInteger Num.Kint64.
Definition cache_IncrementUint := incrementInteger Num.Kuint.
Definition cache_IncrementUintptr := incrementInteger Num.Kuintptr.
Definition cache_IncrementUint8 := incrementInteger Num.Kuint8.
Definition cache_IncrementUint16 := incrementInteger Num.Kuint16.
Definition cache_IncrementUint32 := incrementInteger Num.Kuint32.
Definition cache_IncrementUint64 := incrementInteger Num.Kuint64.
Definition cache_IncrementFloat32 :=
  incrementTyped asFloat32 DFloat32 Num.add32 (S754_zero false) "float32".
Definition cache_IncrementFloat64 :=
  incrementTyped asFloat64 DFloat64 Num.add64 (S754_zero false) "float64".

(** The typed increment of each integer type, by name. *)
Definition typedIncrement (ik : Num.intkind) :=
  match ik with
  | Num.Kint => cache_IncrementInt
  | Num.Kint8 => cache_IncrementInt8
  | Num.Kint16 => cache_IncrementInt16
  | Num.Kint32 => cache_IncrementInt32
  | Num.Kint64 => cache_IncrementInt64
  | Num.Kuint => cache_IncrementUint
  | Num.Kuintptr => cache_IncrementUintptr
  | Num.Kuint8 => cache_IncrementUint8
  | Num.Kuint16 => cache_IncrementUint16
  | Num.Kuint32 => cache_IncrementUint32
  | Num.Kuint64 => cache_IncrementUint64
  end.

(** [func (c *cache[T]) delete(k string) (T, bool)] *)
Definition cache_delete (c : cacheT) (k : string) : cacheT * (T * bool) :=
  match onEvicted c, items c !! k with
  | Some _, Some v => (with_items c (delete k (items c)), (Object v, true))
  | _, _ => (with_items c (delete k (items c)), (zero, false))
  end.

(** The call [c.onEvicted(k, v)].  With a nil [onEvicted] the source
    panics; [Delete] and [DeleteExpired] reach the call only with entries
    that [delete] reported as evicted, hence with a callback registered
    (lemma [cache_delete_evicted]). *)
Definition callOnEvicted (c : cacheT) (k : string) (v : T) : list callT :=
  match onEvicted c with
  | Some f => [Call f k v]
  | None => []
  end.

(** [func (c *cache[T]) Delete(k string)] *)
Definition cache_Delete (c : cacheT) (k : string) : cacheT * list callT :=
  let '(c1, (v, evicted)) := cache_delete c k in
  if evicted then (c1, callOnEvicted c1 k v) else (c1, []).

(** The loop of [DeleteExpired] over the entries [range c.items] yields,
    in the order it yields them: the state is the cache and
    [evictedItems]. *)
Definition deleteExpiredLoop (now : Z)
  (st : cacheT * list (string * T)) (kv : string * Item T)
  : cacheT * list (string * T) :=
  let '(c, evictedItems) := st in
  let '(k, v) := kv in
  if (Expiration v >? 0) && (now >? Expiration v) then
    let '(c1, (ov, evicted)) := cache_delete c k in
    if evicted then (c1, evictedItems ++ [(k, ov)]) else (c1, evictedItems)
  else (c, evictedItems).

(** [func (c *cache[T]) DeleteExpired()].  Go leaves the order of
    [range] over a map open; the model takes the order of [map_to_list]. *)
Definition cache_DeleteExpired (c : cacheT) (now : Z)
  : cacheT * list callT :=
  let '(c1, evictedItems) :=
    foldl (deleteExpiredLoop now) (c, []) (map_to_list (items c)) in
  (c1, flat_map (fun v => callOnEvicted c1 v.1 v.2) evictedItems).

(** [func (c *cache[T]) OnEvicted(f func(string, T))] *)
Definition cache_OnEvicted (c : cacheT) (f : option Callback) : cacheT :=
  with_onEvicted c f.

(** The loop of [Items]; the state is the new map [m]. *)
Definition itemsLoop (now : Z) (m : gmap string (Item T))
  (kv : string * Item T) : gmap string (Item T) :=
  let '(k, v) := kv in
  if Expiration v >? 0 then
    if now >? Expiration v then m else <[k := v]> m
  else <[k := v]> m.

(** [func (c *cache[T]) Items() map[string]Item[T]] *)
Definition cache_Items (c : cacheT) (now : Z)
  : cacheT * gmap string (Item T) :=
  (c, foldl (itemsLoop now) ∅ (map_to_list (items c))).

(** [func (c *cache[T]) ItemCount() int] *)
Definition cache_ItemCount (c : cacheT) : cacheT * nat :=
  (c, size (items c)).

(** [func (c *cache[T]) Flush()] *)
Definition cache_Flush (c : cacheT) : cacheT * list callT :=
  (with_items c ∅, []).

(** *** GetWithExpiration, the generic increments, the decrements *)

(** A [time.Time] as [GetWithExpiration] returns it: the zero value
    [time.Time{}], or [time.Unix(0, nsec)]. *)
Inductive Time := Time_zero | Time_Unix (nsec : Z).

(** [func (c *cache[T]) GetWithExpiration(k string) (interface{}, time.Time, bool)] *)
Definition cache_GetWithExpiration (c : cacheT) (now : Z) (k : string)
  : cacheT * (dyn * Time * bool) :=
  match items c !! k with
  | None => (c, (DNil, Time_zero, false))
  | Some item =>
      if Expiration item >? 0 then
        if now >? Expiration item then (c, (DNil, Time_zero, false))
        else (c, (to_any (Object item), Time_Unix (Expiration item), true))
      else (c, (to_any (Object item), Time_zero, true))
  end.

Definition errNotInteger (k : string) : error :=
  "the value for " +:+ k +:+ " is not an integer".

(** [func (c *cache[T]) Increment(k string, n int64) error]: the type
    switch converts [n] to the type of the stored value and adds. *)
Definition cache_Increment (c : cacheT) (now : Z) (k : string) (n : Z)
  : cacheT * option error :=
  match items c !! k with
  | None => (c, Some (errNotFound k))
  | Some v =>
      if Item_Expired v now then (c, Some (errNotFound k))
      else
        match to_any (Object v) with
        | DInt ik value =>
            let v := Item_SetValue v (DInt ik (Num.add ik value (Num.wrap ik n))) in
            (with_items c (<[k := v]> (items c)), None)
        | DFloat32 value =>
            let v := Item_SetValue v (DFloat32 (Num.add32 value (Num.toFloat32 n))) in
            (with_items c (<[k := v]> (items c)), None)
        | DFloat64 value =>
            let v := Item_SetValue v (DFloat64 (Num.add64 value (Num.toFloat64 n))) in
            (with_items c (<[k := v]> (items c)), None)
        | _ => (c, Some (errNotInteger k))
        end
  end.

(** [func (c *cache[T]) Decrement(k string, n int64) error]; its error
    for a missing key does not name the key. *)
Definition cache_Decrement (c : cacheT) (now : Z) (k : string) (n : Z)
  : cacheT * option error :=
  match items c !! k with
  | None => (c, Some "item not found"%string)
  | Some v =>
      if Item_Expired v now then (c, Some "item not found"%string)
      else
        match to_any (Object v) with
        | DInt ik value =>
            let v := Item_SetValue v (DInt ik (Num.sub ik value (Num.wrap ik n))) in
            (with_items c (<[k := v]> (items c)), None)
        | DFloat32 value =>
            let v := Item_SetValue v (DFloat32 (Num.sub32 value (Num.toFloat32 n))) in
            (with_items c (<[k := v]> (items c)), None)
        | DFloat64 value =>
            let v := Item_SetValue v (DFloat64 (Num.sub64 value (Num.toFloat64 n))) in
            (with_items c (<[k := v]> (items c)), None)
        | _ => (c, Some (errNotInteger k))
        end
  end.

(** The typed decrements [DecrementInt], ..., [DecrementFloat64] have the
    body of the typed increments with [rv - n] for [rv + n]. *)
Definition decrementTyped {A : Type} (assertion : dyn -> option A)
  (inj : A -> dyn) (minus : A -> A -> A) (zeroA : A) (ty : string) :=
  incrementTyped assertion inj minus zeroA ty.

Definition decrementInteger (ik : Num.intkind) :=
  decrementTyped (asInt ik) (DInt ik) (Num.sub ik) 0 (Num.name ik).

Definition cache_DecrementInt := decrementInteger Num.Kint.
Definition cache_DecrementInt8 := decrementInteger Num.Kint8.
Definition cache_DecrementInt16 := decrementInteger Num.Kint16.
Definition cache_DecrementInt32 := decrementInteger Num.Kint32.
Definition cache_DecrementInt64 := decrementInteger Num.Kint64.
Definition cache_DecrementUint := decrementInteger Num.Kuint.
Definition cache_DecrementUintptr := decrementInteger Num.Kuintptr.
Definition cache_DecrementUint8 := decrementInteger Num.Kuint8.
Definition cache_DecrementUint16 := decrementInteger Num.Kuint16.
Definition cache_DecrementUint32 := decrementInteger Num.Kuint32.
Definition cache_DecrementUint64 := decrementInteger Num.Kuint64.
Definition cache_DecrementFloat32 :=
  decrementTyped asFloat32 DFloat32 Num.sub32 (S754_zero false) "float32".
Definition cache_DecrementFloat64 :=
  decrementTyped asFloat64 DFloat64 Num.sub64 (S754_zero false) "float64".

(** The typed decrement of each integer type, by name. *)
Definition typedDecrement (ik : Num.intkind) :=
  match ik with
  | Num.Kint => cache_DecrementInt
  | Num.Kint8 => cache_DecrementInt8
  | Num.Kint16 => cache_DecrementInt16
  | Num.Kint32 => cache_DecrementInt32
  | Num.Kint64 => cache_DecrementInt64
  | Num.Kuint => cache_DecrementUint
  | Num.Kuintptr => cache_DecrementUintptr
  | Num.Kuint8 => cache_DecrementUint8
  | Num.Kuint16 => cache_DecrementUint16
  | Num.Kuint32 => cache_DecrementUint32
  | Num.Kuint64 => cache_DecrementUint64
  end.

(** *** Load *)

Section Gob.
(** The gob decoder is outside the repository: [gobDecode r] is the
    content of [items] after [dec.Decode(&items)] and the error returned. *)
Variable Reader : Type.
Variable gobDecode : Reader -> gmap string (Item T) * option error.

(** One iteration of the loop of [Load]; [clock k] is the reading of the
    clock by [ov.Expired()] in the iteration that visits the key [k]. *)
Definition loadLoop (clock : string -> Z) (c : cacheT)
  (kv : string * Item T) : cacheT :=
  let '(k, v) := kv in
  match items c !! k with
  | None => with_items c (<[k := v]> (items c))
  | Some ov =>
      if Item_Expired ov (clock k)
      then with_items c (<[k := v]> (items c))
      else c
  end.

(** [func (c *cache[T]) Load(r io.Reader) error] *)
Definition cache_Load (c : cacheT) (clock : string -> Z) (r : Reader)
  : cacheT * option error :=
  let '(decoded, err) := gobDecode r in
  match err with
  | None => (foldl (loadLoop clock) c (map_to_list decoded), err)
  | Some _ => (c, err)
  end.

End Gob.

(** ** The janitor *)

(** What the [select] of [janitor.Run] receives: a tick of the ticker,
    with the clock reading of the [DeleteExpired] it starts, or the stop
    signal. *)
Inductive jevent := Tick (now : Z) | Stop.

(** Where the goroutine is: in the [for] loop, or past [return]. *)
Inductive jcontrol := InLoop | Returned.

(** The goroutine with the cache it sweeps, the calls of the eviction
    callback it has made and the number of [DeleteExpired] it has run. *)
Record jstate := mkJstate {
  j_control : jcontrol;
  j_cache : cacheT;
  j_calls : list callT;
  j_sweeps : nat
}.

(** [func (j *janitor[T]) Run(c *cache[T])]: one iteration of the loop. *)
Inductive janitor_Run : jstate -> jevent -> jstate -> Prop :=
| Run_tick c calls n now :
    janitor_Run (mkJstate InLoop c calls n) (Tick now)
      (mkJstate InLoop (cache_DeleteExpired c now).1
         (calls ++ (cache_DeleteExpired c now).2) (S n))
| Run_stop c calls n :
    janitor_Run (mkJstate InLoop c calls n) Stop
      (mkJstate Returned c calls n).

(** The same loop as a function: [None] when the goroutine has returned
    and receives nothing any more. *)
Definition janitor_Run_fun (s : jstate) (e : jevent) : option jstate :=
  match j_control s, e with
  | Returned, _ => None
  | InLoop, Tick now =>
      let r := cache_DeleteExpired (j_cache s) now in
      Some (mkJstate InLoop r.1 (j_calls s ++ r.2) (S (j_sweeps s)))
  | InLoop, Stop =>
      Some (mkJstate Returned (j_cache s) (j_calls s) (j_sweeps s))
  end.

(** [func runJanitor[T any](c *cache[T], ci time.Duration)]: the janitor
    is recorded in the cache and its goroutine starts in the loop. *)
Definition runJanitor (c : cacheT) (ci : Z) : cacheT :=
  with_janitor c (Some (mkJanitor ci)).

(** ** Construction *)

(** [func newCache[T any](de time.Duration, m map[string]Item[T]) *cache[T]] *)
Definition newCache (de : Z) (m : gmap string (Item T)) : cacheT :=
  let de := if de =? 0 then -1 else de in
  mkCache de m None None.

(** [type Cache[T any] struct { *cache[T] }], with the finalizer that
    [runtime.SetFinalizer] attached to it, if any. *)
Record Cache := mkCacheHandle {
  embedded : cacheT;
  finalizer : bool
}.

(** [func newCacheWithJanitor[T any](de, ci time.Duration, m map[string]Item[T]) *Cache[T]] *)
Definition newCacheWithJanitor (de ci : Z) (m : gmap string (Item T))
  : Cache :=
  let c := newCache de m in
  if ci >? 0 then mkCacheHandle (runJanitor c ci) true
  else mkCacheHandle c false.

(** The goroutine that [runJanitor] started for the handle, if any: in
    its loop, on the cache of the handle, with nothing swept yet. *)
Definition startedJanitor (C : Cache) : option jstate :=
  match janitor (embedded C) with
  | Some _ => Some (mkJstate InLoop (embedded C) [] 0)
  | None => None
  end.

(** [func stopJanitor[T any](c *Cache[T])], the finalizer: it sends on
    [c.janitor.stop], which the loop receives as [Stop]. *)
Definition stopJanitor : jevent := Stop.

(** [func New[T any](defaultExpiration, cleanupInterval time.Duration) *Cache[T]] *)
Definition New (defaultExpiration cleanupInterval : Z) : Cache :=
  newCacheWithJanitor defaultExpiration cleanupInterval ∅.

(** [func NewFrom[T any](defaultExpiration, cleanupInterval time.Duration, items map[string]Item[T]) *Cache[T]] *)
Definition NewFrom (defaultExpiration cleanupInterval : Z)
  (items : gmap string (Item T)) : Cache :=
  newCacheWithJanitor defaultExpiration cleanupInterval items.

End Store.

(** ** Instances of the type parameter *)

(** [T] is one of the integer types: [Cache[int]], [Cache[uint8]], ... *)
Definition GoInteger (ik : Num.intkind) : GoType Z.
Proof.
  refine {| zero := 0; to_any := DInt ik; assertT := asInt ik |}.
  intros x [ | k z | | | | ] Hnum Hty; simpl in *; try discriminate.
  injection Hty as ->. exists z. by rewrite decide_True.
Defined.

(** [T] is [string]: [Cache[string]]. *)
Definition GoString : GoType string.
Proof.
  refine {| zero := ""%string; to_any := DString;
            assertT := fun d => match d with DString s => Some s | _ => None end |}.
  intros x [ | | | | | ] Hnum Hty; simpl in *; discriminate.
Defined.

(** [T] is [any]: [Cache[any]].  The nil interface value matches no case
    of a type switch but [case nil]. *)
Definition GoAny : GoType dyn.
Proof.
  refine {| zero := DNil; to_any := fun d => d;
            assertT := fun d => match d with DNil => None | _ => Some d end |}.
  intros x [ | | | | | ] Hnum Hty; simpl in *; try discriminate; eauto.
Defined.

(** ** Programs over a cache

    The calls a client (or the janitor) makes on one cache, each with the
    clock readings it consumes, and their effect on the cache in sequence.
    They serve to state what holds "at every later time". *)

Section Programs.
Context {T : Type} `{GT : GoType T} {Callback : Type}.

Inductive op :=
| OpSet (now : Z) (k : string) (x : T) (d : Z)
| OpSetDefault (now : Z) (k : string) (x : T)
| OpAdd (now now' : Z) (k : string) (x : T) (d : Z)
| OpReplace (now now' : Z) (k : string) (x : T) (d : Z)
| OpGet (now : Z) (k : string)
| OpIncrement (ik : Num.intkind) (now : Z) (k : string) (n : Z)
| OpDelete (k : string)
| OpDeleteExpired (now : Z)
| OpOnEvicted (f : option Callback)
| OpItemCount
| OpFlush.

Definition exec (c : cache T Callback) (o : op) : cache T Callback :=
  match o with
  | OpSet now k x d => cache_Set c now k x d
  | OpSetDefault now k x => cache_SetDefault c now k x
  | OpAdd now now' k x d => (cache_Add c now now' k x d).1
  | OpReplace now now' k x d => (cache_Replace c now now' k x d).1
  | OpGet now k => (cache_Get c now k).1
  | OpIncrement ik now k n => (incrementInteger ik c now k n).1
  | OpDelete k => (cache_Delete c k).1
  | OpDeleteExpired now => (cache_DeleteExpired c now).1
  | OpOnEvicted f => cache_OnEvicted c f
  | OpItemCount => (cache_ItemCount c).1
  | OpFlush => (cache_Flush c).1
  end.

Definition execs (c : cache T Callback) (os : list op) : cache T Callback :=
  foldl exec c os.

(** The calls that write, overwrite or remove the entry of [k] by name:
    every other call is one that leaves [k] to expiration alone. *)
Definition addresses (k : string) (o : op) : bool :=
  match o with
  | OpSet _ k' _ _ | OpSetDefault _ k' _ | OpAdd _ _ k' _ _
  | OpReplace _ _ k' _ _ | OpIncrement _ _ k' _ | OpDelete k' =>
      bool_decide (k' = k)
  | OpFlush => true
  | OpGet _ _ | OpDeleteExpired _ | OpOnEvicted _ | OpItemCount => false
  end.

(** The janitor runs in a goroutine of its own ([go j.Run(c)]) beside the
    callers of the cache: a step of the whole is a step of the janitor's
    loop or a call by a client, on the one cache they share. *)
Inductive sevent :=
| Janitor (e : jevent)
| Client (o : op).

Inductive system_step
  : jstate (T := T) (Callback := Callback) -> sevent -> jstate -> Prop :=
| Sys_janitor s e s' :
    janitor_Run s e s' -> system_step s (Janitor e) s'
| Sys_client ctl c calls n o :
    system_step (mkJstate ctl c calls n) (Client o)
      (mkJstate ctl (exec c o) calls n).

Inductive system_run
  : jstate (T := T) (Callback := Callback) -> list sevent -> jstate -> Prop :=
| Run_nil s : system_run s [] s
| Run_cons s e s1 es s2 :
    system_step s e s1 -> system_run s1 es s2 -> system_run s (e :: es) s2.

Definition isClient (e : sevent) : Prop := exists o, e = Client o.

(** The events that are ticks received by the janitor. *)
Definition isTick (e : sevent) : bool :=
  match e with
  | Janitor (Tick _) => true
  | _ => false
  end.

(** The number of keys of the mapping that [Get] reports as found. *)
Definition foundCount (c : cache T Callback) (now : Z) : nat :=
  size (filter (fun kv => (cache_Get c now kv.1).2.2 = true) (items c)).

(** A cache with one entry, expired at clock reading 2 and not swept. *)
Definition unsweptCache : cache T Callback :=
  cache_Set (embedded (New 0 0)) 0 "a" zero 1.

(** What the merge of [Load] leaves at a key the incoming mapping has:
    the existing entry if there is one and [Expired] is false of it, else
    the incoming entry. *)
Definition merged (clock : string -> Z) (existing : option (Item T))
  (k : string) (incoming : Item T) : Item T :=
  match existing with
  | Some ov => if Item_Expired ov (clock k) then incoming else ov
  | None => incoming
  end.

End Programs.

(** ** Programs with Load

    The calls of [op] and [Load], which names no key: it writes the keys
    of the mapping it decodes. *)

Section ProgramsWithLoad.
Context {T : Type} `{GT : GoType T} {Callback : Type}.
Variable Reader : Type.
Variable gobDecode : Reader -> gmap string (Item T) * option error.

(** [OpLoad clock r] is [Load(r)], with [clock k] the reading of the
    clock in the iteration of its loop for the key [k]. *)
Inductive lop :=
| Plain (o : op (T := T) (Callback := Callback))
| OpLoad (clock : string -> Z) (r : Reader).

Definition lexec (c : cache T Callback) (o : lop) : cache T Callback :=
  match o with
  | Plain o => exec c o
  | OpLoad clock r => (cache_Load Reader gobDecode c clock r).1
  end.

Definition lexecs (c : cache T Callback) (os : list lop) : cache T Callback :=
  foldl lexec c os.

(** The keys a call addresses: those of [addresses] and, for a [Load]
    whose data decode without error, the keys of the decoded mapping; a
    [Load] that fails to decode addresses none. *)
Definition laddresses (k : string) (o : lop) : bool :=
  match o with
  | Plain o => addresses k o
  | OpLoad _ r =>
      match gobDecode r with
      | (decoded, None) => bool_decide (is_Some (decoded !! k))
      | (_, Some _) => false
      end
  end.

(** The sweeps of the calls all read the clock at or before [now]. *)
Definition lsweepsBy (now : Z) (os : list lop) : Prop :=
  Forall (fun o => match o with
                   | Plain (OpDeleteExpired t) => t <= now
                   | _ => True
                   end) os.

End ProgramsWithLoad.

(** ** Concrete caches

    A [Cache[int]] whose callbacks are named by numbers, and the states
    used in the examples. *)

Module Demo.

#[export] Instance intType : GoType Z := GoInteger Num.Kint.

Definition c0 : cache Z nat := embedded (New 0 0).

(** ["a"] set at 1000 for 50ns. *)
Definition cTtl : cache Z nat := cache_Set c0 1000 "a" 7 50.

(** ["a"] set without expiration. *)
Definition cNever : cache Z nat := cache_Set c0 1000 "a" 7 NoExpiration.

Definition later : list (op (T := Z) (Callback := nat)) :=
  [OpDeleteExpired 5000; OpSet 6000 "b" 1 10; OpGet 7000 "a";
   OpDelete "b"; OpDeleteExpired 9000].

(** ["x"] holds 10 until 1500. *)
Definition cCounter : cache Z nat := cache_Set c0 1000 "x" 10 500.

(** [cNever] with the callback 1 registered. *)
Definition cWatched : cache Z nat := cache_OnEvicted cNever (Some 1%nat).

(** A decoder that yields entries for ["a"] and ["b"], and one that
    fails. *)
Definition incoming : gmap string (Item Z) :=
  <["a" := mkItem 70 0]> (<["b" := mkItem 80 0]> ∅).
Definition decodeOk (r : unit) : gmap string (Item Z) * option error :=
  (incoming, None).
Definition decodeFails (r : unit) : gmap string (Item Z) * option error :=
  (∅, Some "unexpected EOF"%string).

(** A cache made with the default expiration -5. *)
Definition CNeg : Cache (T := Z) (Callback := nat) := NewFrom (-5) 0 ∅.

(** The janitor of [cTtl] beside a client: the client sets ["b"], the
    janitor sweeps at 2000 and receives the stop signal, the client goes
    on calling. *)
Definition j0 : jstate (T := Z) (Callback := nat) := mkJstate InLoop cTtl [] 0.
Definition j0b : jstate (T := Z) (Callback := nat) :=
  mkJstate InLoop (exec cTtl (OpSet 1500 "b" 1 10)) [] 0.
Definition j1 : jstate (T := Z) (Callback := nat) :=
  mkJstate InLoop (cache_DeleteExpired (j_cache j0b) 2000).1
    ([] ++ (cache_DeleteExpired (j_cache j0b) 2000).2) 1.
Definition j2 : jstate (T := Z) (Callback := nat) :=
  mkJstate Returned (j_cache j1) (j_calls j1) (j_sweeps j1).
Definition j2b : jstate (T := Z) (Callback := nat) :=
  mkJstate Returned (exec (j_cache j2) (OpGet 3000 "a"))
    (j_calls j1) (j_sweeps j1).
Definition j3 : jstate (T := Z) (Callback := nat) :=
  mkJstate Returned (exec (j_cache j2b) (OpDeleteExpired 4000))
    (j_calls j1) (j_sweeps j1).

Definition beforeStop : list (sevent (T := Z) (Callback := nat)) :=
  [Client (OpSet 1500 "b" 1 10); Janitor (Tick 2000)].
Definition afterStop : list (sevent (T := Z) (Callback := nat)) :=
  [Client (OpGet 3000 "a"); Client (OpDeleteExpired 4000)].

(** A [Cache[string]], for the calls that need a value that is no
    number, and a counter at the largest [int]. *)
#[export] Instance stringType : GoType string := GoString.

Definition cWords : cache string nat :=
  cache_Set (embedded (New 0 0)) 1000 "w" "hello"%string NoExpiration.

Definition cMax : cache Z nat := cache_Set c0 1000 "x" (2 ^ 63 - 1) NoExpiration.

Definition setB : op (T := Z) (Callback := nat) := OpSet 6000 "b" 1 10.

(** The janitor of [cNever] beside a client. *)
Definition jn0 : jstate (T := Z) (Callback := nat) := mkJstate InLoop cNever [] 0.
Definition jn1 : jstate (T := Z) (Callback := nat) :=
  mkJstate InLoop (cache_DeleteExpired cNever 2000).1
    ([] ++ (cache_DeleteExpired cNever 2000).2) 1.
Definition jn2 : jstate (T := Z) (Callback := nat) :=
  mkJstate InLoop (exec (j_cache jn1) (OpSet 3000 "b" 1 10)) (j_calls jn1) 1.
Definition tickThenSet : list (sevent (T := Z) (Callback := nat)) :=
  [Janitor (Tick 2000); Client (OpSet 3000 "b" 1 10)].

(** A decoder whose data have an entry for ["b"] only, and calls that
    leave ["a"] alone, a [Load] among them. *)
Definition decodeB (r : unit) : gmap string (Item Z) * option error :=
  (<["b" := mkItem 80 0]> ∅, None).
Definition earlyL : list (lop (T := Z) (Callback := nat) unit) :=
  [Plain unit (OpDeleteExpired 1030); OpLoad unit (fun _ => 1032) tt;
   Plain unit (OpSet 1035 "b" 1 10); Plain unit (OpGet 1036 "a")].
Definition laterL : list (lop (T := Z) (Callback := nat) unit) :=
  [Plain unit (OpSet 6000 "b" 1 10); OpLoad unit (fun _ => 6500) tt;
   Plain unit (OpDeleteExpired 7000); OpLoad unit (fun _ => 7500) tt].

End Demo.

(** * Properties *)

(** ** Arithmetic of instants *)

Lemma wrap_signed_in_range z :
  Num.is_int64 z -> Num.wrap_signed 64 z = z.
Proof.
  unfold Num.is_int64, Num.wrap_signed. intros Hz.
  rewrite Z.mod_small; lia.
Qed.

Lemma wrap_signed_overflow z :
  2 ^ 63 <= z < 2 ^ 64 -> Num.wrap_signed 64 z = z - 2 ^ 64.
Proof.
  unfold Num.wrap_signed. intros Hz.
  assert (Hm : (z + 2 ^ (64 - 1)) mod 2 ^ 64 = z + 2 ^ 63 - 2 ^ 64).
  { symmetry. apply (Z.mod_unique _ _ 1); lia. }
  rewrite Hm. lia.
Qed.

(** The instant [Set] stores for a positive duration read after the Unix
    epoch: positive and exact when it fits, negative when it overflows. *)
Lemma UnixNano_after_cases t0 d :
  Num.is_int64 t0 -> Num.is_int64 d -> 0 <= t0 -> 0 < d ->
  (t0 + d < 2 ^ 63 /\ UnixNano_after t0 d = t0 + d) \/
  (2 ^ 63 <= t0 + d /\ UnixNano_after t0 d < 0).
Proof.
  unfold UnixNano_after, Num.is_int64. intros Ht Hd H0 Hpos.
  destruct (Z_lt_le_dec (t0 + d) (2 ^ 63)) as [Hlt | Hge].
  - left. split; [done |]. apply wrap_signed_in_range. unfold Num.is_int64. lia.
  - right. split; [done |]. rewrite wrap_signed_overflow; lia.
Qed.

(** On an item whose [Expiration] is not negative, the method [Expired]
    and the test inlined in [Get] agree. *)
Lemma Item_Expired_inline {T} (item : Item T) now :
  0 <= Expiration item -> Item_Expired item now = expiredInline item now.
Proof.
  unfold Item_Expired, expiredInline. intros H.
  destruct (Z.eqb_spec (Expiration item) 0) as [-> | Hne]; [done |].
  destruct (Z.gtb_spec (Expiration item) 0); [done | lia].
Qed.

(** An item the inlined test finds expired is expired for [Expired]. *)
Lemma expiredInline_Expired {T} (item : Item T) now :
  expiredInline item now = true -> Item_Expired item now = true.
Proof.
  unfold Item_Expired, expiredInline. intros [H1 H2]%andb_true_iff.
  destruct (Z.eqb_spec (Expiration item) 0) as [Heq | Hne]; [| done].
  rewrite Heq in H1. discriminate.
Qed.

(** ** Fixed-width arithmetic *)

Lemma bits_pos ik : 0 < 2 ^ Num.bits ik.
Proof. by destruct ik. Qed.

Lemma wrap_mod ik z :
  Num.wrap ik z mod 2 ^ Num.bits ik = z mod 2 ^ Num.bits ik.
Proof.
  pose proof (bits_pos ik) as Hpos.
  unfold Num.wrap, Num.wrap_signed, Num.wrap_unsigned.
  destruct (Num.signed ik).
  - rewrite Zminus_mod_idemp_l. f_equal. lia.
  - apply Z.mod_mod. lia.
Qed.

Lemma wrap_congr ik (a b : Z) :
  a mod 2 ^ Num.bits ik = b mod 2 ^ Num.bits ik -> Num.wrap ik a = Num.wrap ik b.
Proof.
  intros H. unfold Num.wrap, Num.wrap_signed, Num.wrap_unsigned.
  destruct (Num.signed ik); [| done].
  f_equal. rewrite (Zplus_mod a), (Zplus_mod b). by rewrite H.
Qed.

Lemma wrap_in_range ik z : Num.in_range ik z -> Num.wrap ik z = z.
Proof.
  unfold Num.wrap, Num.in_range, Num.wrap_signed, Num.wrap_unsigned.
  destruct ik; simpl; intros H; rewrite Z.mod_small; lia.
Qed.

(** The sum and the difference of a fixed-width type are values of the
    type. *)
Lemma wrap_range ik z : Num.in_range ik (Num.wrap ik z).
Proof.
  unfold Num.wrap, Num.in_range, Num.wrap_signed, Num.wrap_unsigned.
  destruct ik; simpl;
    match goal with
    | |- context [?a mod ?m] =>
        pose proof (Z.mod_pos_bound a m ltac:(lia))
    end; lia.
Qed.

Section Properties.
Context {T : Type} `{GT : GoType T} {Callback : Type}.

Local Abbreviation cacheT := (cache T Callback).

Implicit Types (c : cacheT) (k : string) (v x : T) (item : Item T).

(** ** Set and Get *)

Lemma cache_set_Set c now k x d : cache_set c now k x d = cache_Set c now k x d.
Proof. reflexivity. Qed.

Lemma cache_Get_unchanged c now k : (cache_Get c now k).1 = c.
Proof.
  unfold cache_Get. destruct (items c !! k) as [item |]; [| done].
  destruct (Expiration item >? 0); [| done].
  by destruct (now >? Expiration item).
Qed.

(** [Get] in terms of the inlined expiration test. *)
Lemma cache_Get_lookup c now k :
  cache_Get c now k =
  match items c !! k with
  | Some item =>
      if expiredInline item now then (c, (zero, false))
      else (c, (Object item, true))
  | None => (c, (zero, false))
  end.
Proof.
  unfold cache_Get, expiredInline. destruct (items c !! k) as [item |]; [| done].
  destruct (Expiration item >? 0); [| done].
  by destruct (now >? Expiration item).
Qed.

Lemma cache_get_found c now k :
  cache_get c now k =
  match items c !! k with
  | Some item =>
      if expiredInline item now then (c, (DNil, false))
      else (c, (to_any (Object item), true))
  | None => (c, (DNil, false))
  end.
Proof.
  unfold cache_get, expiredInline. destruct (items c !! k) as [item |]; [| done].
  destruct (Expiration item >? 0); [| done].
  by destruct (now >? Expiration item).
Qed.

Lemma cache_Set_stores c now k x d :
  cache_Set c now k x d =
  with_items c
    (<[k := mkItem x (if effectiveDuration c d >? 0
                      then UnixNano_after now (effectiveDuration c d)
                      else 0)]> (items c)).
Proof. reflexivity. Qed.

(** C1. For a duration [d > 0], after [Set(k, v, d)] at clock reading
    [t0] (a reading after the Unix epoch), [Get(k)] returns [(v, true)]
    at every reading [now <= t0 + d], the instant [t0 + d] included, and
    the zero value with [false] at every reading [now > t0 + d]; the cache
    is the same after [Get].  Clock readings and durations are [int64]. *)
Theorem cache_Get_after_Set_ttl c t0 now k v d :
  Num.is_int64 t0 -> Num.is_int64 d -> Num.is_int64 now ->
  0 <= t0 -> 0 < d ->
  let c' := cache_Set c t0 k v d in
  (now <= t0 + d -> cache_Get c' now k = (c', (v, true))) /\
  (now > t0 + d -> cache_Get c' now k = (c', (zero, false))).
Proof.
  intros Ht Hd Hn H0 Hpos c'.
  assert (Hk : items c' !! k = Some (mkItem v (UnixNano_after t0 d))).
  { subst c'. rewrite cache_Set_stores. unfold effectiveDuration, DefaultExpiration.
    destruct (Z.eqb_spec d 0); [lia |].
    destruct (Z.gtb_spec d 0); [| lia]. simpl. apply lookup_insert_eq. }
  rewrite cache_Get_lookup, Hk. unfold expiredInline. simpl.
  destruct (UnixNano_after_cases t0 d Ht Hd H0 Hpos) as [[Hfit He] | [Hover He]].
  - rewrite He. destruct (Z.gtb_spec (t0 + d) 0); [| lia]. simpl.
    split; intros Hcmp; destruct (Z.gtb_spec now (t0 + d)); (done || lia).
  - destruct (Z.gtb_spec (UnixNano_after t0 d) 0); [lia |]. simpl.
    split; intros Hcmp; [done |]. unfold Num.is_int64 in Hn. lia.
Qed.

(** ** Removal *)

Lemma cache_delete_items c k :
  items (cache_delete c k).1 = delete k (items c).
Proof.
  unfold cache_delete. destruct (onEvicted c); [| done].
  by destruct (items c !! k).
Qed.

Lemma cache_delete_onEvicted c k :
  onEvicted (cache_delete c k).1 = onEvicted c.
Proof.
  unfold cache_delete.
  destruct (onEvicted c) eqn:Hf, (items c !! k); simpl; congruence.
Qed.

(** [delete] reports an eviction only with a callback registered. *)
Lemma cache_delete_evicted c k :
  (cache_delete c k).2.2 = true -> is_Some (onEvicted c).
Proof.
  unfold cache_delete. destruct (onEvicted c); [eauto |]. simpl. discriminate.
Qed.

(** The sweep removes nothing but entries its test finds expired. *)
Lemma deleteExpiredLoop_kept now (l : list (string * Item T))
  (st : cacheT * list (string * T)) k :
  (forall item, (k, item) ∈ l -> expiredInline item now = false) ->
  items (foldl (deleteExpiredLoop now) st l).1 !! k = items st.1 !! k.
Proof.
  revert st. induction l as [| [k' item'] l IH]; intros [c ev] Hl; [done |].
  simpl. rewrite IH.
  - fold (expiredInline item' now).
    destruct (expiredInline item' now) eqn:Hexp; [| done].
    assert (Hne : k' <> k).
    { intros ->. rewrite Hl in Hexp; [done | left]. }
    pose proof (cache_delete_items c k') as Hd.
    destruct (cache_delete c k') as [c1 [ov evicted]]. simpl in Hd.
    assert (Hc1 : items c1 !! k = items c !! k).
    { rewrite Hd. by apply lookup_delete_ne. }
    by destruct evicted.
  - intros item Hin. apply Hl. by right.
Qed.

Lemma cache_DeleteExpired_kept c now k item :
  items c !! k = Some item -> expiredInline item now = false ->
  items (cache_DeleteExpired c now).1 !! k = Some item.
Proof.
  intros Hk Hlive. unfold cache_DeleteExpired.
  pose proof (deleteExpiredLoop_kept now (map_to_list (items c)) (c, []) k) as H.
  destruct (foldl (deleteExpiredLoop now) (c, []) (map_to_list (items c)))
    as [c1 ev]. simpl in *. rewrite H; [done |].
  intros item' Hin%elem_of_map_to_list. congruence.
Qed.

(** The sweep adds nothing. *)
Lemma deleteExpiredLoop_absent now (l : list (string * Item T))
  (st : cacheT * list (string * T)) k :
  items st.1 !! k = None ->
  items (foldl (deleteExpiredLoop now) st l).1 !! k = None.
Proof.
  revert st. induction l as [| [k' item'] l IH]; intros [c ev] Hk; [done |].
  cbn [foldl]. apply IH. unfold deleteExpiredLoop.
  destruct ((Expiration item' >? 0) && (now >? Expiration item')); [| done].
  pose proof (cache_delete_items c k') as Hd.
  destruct (cache_delete c k') as [c1 [ov evicted]]. simpl in Hd, Hk.
  assert (Hc1 : items c1 !! k = None).
  { rewrite Hd. destruct (decide (k' = k)) as [-> |].
    - apply lookup_delete_eq.
    - by rewrite lookup_delete_ne. }
  by destruct evicted.
Qed.

(** The sweep removes every entry it visits and finds expired. *)
Lemma deleteExpiredLoop_removed now (l : list (string * Item T))
  (st : cacheT * list (string * T)) k item :
  (k, item) ∈ l -> expiredInline item now = true ->
  items (foldl (deleteExpiredLoop now) st l).1 !! k = None.
Proof.
  revert st. induction l as [| [k' item'] l IH]; intros [c ev] Hin Hexp.
  - by apply elem_of_nil in Hin.
  - apply elem_of_cons in Hin as [Heq | Hin]; [| by apply IH].
    injection Heq as <- <-. cbn [foldl].
    apply deleteExpiredLoop_absent. unfold deleteExpiredLoop.
    fold (expiredInline item now). rewrite Hexp.
    pose proof (cache_delete_items c k) as Hd.
    destruct (cache_delete c k) as [c1 [ov evicted]]. simpl in Hd.
    assert (Hc1 : items c1 !! k = None).
    { rewrite Hd. apply lookup_delete_eq. }
    by destruct evicted.
Qed.

(** The mapping after [DeleteExpired] is the mapping before without the
    entries expired at the clock reading of the sweep, in whatever order
    the loop visits them. *)
Lemma cache_DeleteExpired_items c now :
  items (cache_DeleteExpired c now).1
  = filter (fun kv => expiredInline kv.2 now = false) (items c).
Proof.
  apply map_eq. intros k. symmetry.
  destruct (items c !! k) as [item |] eqn:Hk.
  - destruct (expiredInline item now) eqn:Hexp.
    + transitivity (@None (Item T)).
      * apply map_lookup_filter_None_2. right. intros x Hx. simpl. congruence.
      * symmetry. unfold cache_DeleteExpired.
        pose proof (deleteExpiredLoop_removed now (map_to_list (items c))
                      (c, []) k item) as H.
        destruct (foldl (deleteExpiredLoop now) (c, []) (map_to_list (items c)))
          as [c1 ev]. simpl in *. apply H; [| done].
        by apply elem_of_map_to_list.
    + rewrite (cache_DeleteExpired_kept c now k item Hk Hexp).
      by apply map_lookup_filter_Some_2.
  - transitivity (@None (Item T)).
    + apply map_lookup_filter_None_2. by left.
    + symmetry. unfold cache_DeleteExpired.
      pose proof (deleteExpiredLoop_absent now (map_to_list (items c))
                    (c, []) k Hk) as H.
      by destruct (foldl (deleteExpiredLoop now) (c, []) (map_to_list (items c))).
Qed.

(** ** Entries without expiration *)

Lemma never_expiredInline x now : expiredInline (mkItem x 0) now = false.
Proof. reflexivity. Qed.

Lemma cache_Set_lookup_ne c now k k' x d :
  k' <> k -> items (cache_Set c now k' x d) !! k = items c !! k.
Proof. intros Hne. rewrite cache_Set_stores. simpl. by apply lookup_insert_ne. Qed.

(** A call that does not address [k] leaves an entry of [k] that has no
    expiration where it is. *)
Lemma exec_keeps_never c (o : op) k v :
  addresses k o = false ->
  items c !! k = Some (mkItem v 0) ->
  items (exec c o) !! k = Some (mkItem v 0).
Proof.
  intros Ho Hk. destruct o; cbn [exec addresses] in Ho |- *;
    try (apply bool_decide_eq_false in Ho); try done.
  - by rewrite cache_Set_lookup_ne.
  - unfold cache_SetDefault. by rewrite cache_Set_lookup_ne.
  - unfold cache_Add. rewrite cache_get_found.
    destruct (items c !! k0) as [item |]; [destruct (expiredInline item now) |];
      simpl; rewrite ?lookup_insert_ne by done; done.
  - unfold cache_Replace. rewrite cache_get_found.
    destruct (items c !! k0) as [item |]; [destruct (expiredInline item now) |];
      simpl; rewrite ?lookup_insert_ne by done; done.
  - by rewrite cache_Get_unchanged.
  - unfold incrementInteger, incrementTyped.
    destruct (items c !! k0) as [item |]; [| done].
    destruct (Item_Expired item now); [done |].
    destruct (asInt ik (to_any (Object item))); [| done].
    simpl. by rewrite lookup_insert_ne.
  - unfold cache_Delete.
    pose proof (cache_delete_items c k0) as Hd.
    destruct (cache_delete c k0) as [c1 [ov evicted]]. simpl in Hd.
    assert (items c1 !! k = Some (mkItem v 0)).
    { rewrite Hd. by rewrite lookup_delete_ne. }
    by destruct evicted.
  - by apply cache_DeleteExpired_kept.
Qed.

Lemma execs_keep_never (os : list op) c k v :
  Forall (fun o => addresses k o = false) os ->
  items c !! k = Some (mkItem v 0) ->
  items (execs c os) !! k = Some (mkItem v 0).
Proof.
  unfold execs. intros Hos. revert c.
  induction Hos as [| o os Ho _ IH]; intros c Hk; [done |].
  simpl. apply IH. by apply exec_keeps_never.
Qed.

Lemma cache_Get_never c now k v :
  items c !! k = Some (mkItem v 0) -> cache_Get c now k = (c, (v, true)).
Proof. intros Hk. by rewrite cache_Get_lookup, Hk. Qed.

(** C2. After [Set(k, v, NoExpiration)] the entry of [k] has expiration
    0, the encoding of no expiration; [Expired] is false of it at every
    clock reading; and [Get(k)] returns [(v, true)] at every clock
    reading, after any sequence of the calls of [op] (sweeps of
    [DeleteExpired] included) none of which is a [Flush] or a write or
    [Delete] of [k] itself. *)
Theorem cache_Set_NoExpiration_forever c t0 k v :
  let c' := cache_Set c t0 k v NoExpiration in
  items c' !! k = Some (mkItem v 0) /\
  (forall now, Item_Expired (mkItem v 0) now = false) /\
  (forall (os : list op) now,
     Forall (fun o => addresses k o = false) os ->
     cache_Get (execs c' os) now k = (execs c' os, (v, true))).
Proof.
  intros c'.
  assert (Hk : items c' !! k = Some (mkItem v 0)).
  { subst c'. rewrite cache_Set_stores. simpl. apply lookup_insert_eq. }
  split; [done |]. split; [done |].
  intros os now Hos. apply cache_Get_never. by apply execs_keep_never.
Qed.

(** ** Non-positive durations *)

Lemma cache_Set_nonpositive c now k x d :
  effectiveDuration c d <= 0 ->
  cache_Set c now k x d = with_items c (<[k := mkItem x 0]> (items c)).
Proof.
  intros Hd. rewrite cache_Set_stores.
  by destruct (Z.gtb_spec (effectiveDuration c d) 0); [lia |].
Qed.

(** C10. [Set(k, v, d)] (and [set]) with any negative [d], [-1] or not,
    stores [v] with expiration 0, so that [Get(k)] finds it at every
    clock reading; more generally the stored expiration is 0 whenever the
    duration in effect is not positive, and it is the instant computed by
    [time.Now().Add] exactly when the duration in effect is positive. *)
Theorem cache_Set_negative_never c t0 k v d :
  (d < 0 ->
   cache_Set c t0 k v d = with_items c (<[k := mkItem v 0]> (items c)) /\
   cache_set c t0 k v d = with_items c (<[k := mkItem v 0]> (items c)) /\
   forall now, cache_Get (cache_Set c t0 k v d) now k
               = (cache_Set c t0 k v d, (v, true))) /\
  (effectiveDuration c d <= 0 ->
   items (cache_Set c t0 k v d) !! k = Some (mkItem v 0) /\
   items (cache_set c t0 k v d) !! k = Some (mkItem v 0)) /\
  (0 < effectiveDuration c d ->
   items (cache_Set c t0 k v d) !! k
     = Some (mkItem v (UnixNano_after t0 (effectiveDuration c d))) /\
   items (cache_set c t0 k v d) !! k
     = Some (mkItem v (UnixNano_after t0 (effectiveDuration c d)))).
Proof.
  split; [| split].
  - intros Hd.
    assert (Heff : effectiveDuration c d <= 0).
    { unfold effectiveDuration, DefaultExpiration.
      destruct (Z.eqb_spec d 0); lia. }
    change (cache_set c t0 k v d) with (cache_Set c t0 k v d).
    rewrite (cache_Set_nonpositive _ _ _ _ _ Heff).
    split; [done |]. split; [done |].
    intros now. apply cache_Get_never. simpl. apply lookup_insert_eq.
  - intros Heff.
    change (cache_set c t0 k v d) with (cache_Set c t0 k v d).
    rewrite (cache_Set_nonpositive _ _ _ _ _ Heff). simpl.
    split; apply lookup_insert_eq.
  - intros Heff. change (cache_set c t0 k v d) with (cache_Set c t0 k v d).
    rewrite cache_Set_stores.
    destruct (Z.gtb_spec (effectiveDuration c d) 0); [| lia]. simpl.
    split; apply lookup_insert_eq.
Qed.

(** ** Construction *)

Lemma newCache_defaultExpiration (de : Z) (m : gmap string (Item T)) :
  de <= 0 -> defaultExpiration (newCache (Callback := Callback) de m) < 0.
Proof. intros Hde. simpl. destruct (Z.eqb_spec de 0); lia. Qed.

Lemma newCacheWithJanitor_defaultExpiration (de ci : Z)
  (m : gmap string (Item T)) :
  defaultExpiration (embedded (newCacheWithJanitor (Callback := Callback) de ci m))
  = defaultExpiration (newCache (Callback := Callback) de m).
Proof. unfold newCacheWithJanitor. by destruct (ci >? 0). Qed.

(** C8. A cache made by [New] or [NewFrom] with a default expiration
    [de <= 0] has a negative default duration; on it [SetDefault(k, v)],
    which is [Set(k, v, DefaultExpiration)], stores [v] with expiration
    0, and [Get(k)] returns [(v, true)] at every clock reading, after any
    sequence of the calls of [op] (the janitor's sweeps included) none of
    which is a [Flush] or a write or [Delete] of [k] itself. *)
Theorem New_nonpositive_default_never (de ci : Z) (m : gmap string (Item T))
  t0 k v :
  de <= 0 ->
  forall C : Cache (T := T) (Callback := Callback),
  C = NewFrom de ci m \/ C = New de ci ->
  let c := embedded C in
  let c' := cache_SetDefault c t0 k v in
  defaultExpiration c < 0 /\
  c' = cache_Set c t0 k v DefaultExpiration /\
  items c' !! k = Some (mkItem v 0) /\
  (forall (os : list op) now,
     Forall (fun o => addresses k o = false) os ->
     cache_Get (execs c' os) now k = (execs c' os, (v, true))).
Proof.
  intros Hde C HC c c'.
  assert (Hdef : defaultExpiration c < 0).
  { subst c. destruct HC as [-> | ->]; unfold New, NewFrom;
      rewrite newCacheWithJanitor_defaultExpiration;
      by apply newCache_defaultExpiration. }
  assert (Hk : items c' !! k = Some (mkItem v 0)).
  { subst c'. unfold cache_SetDefault.
    rewrite cache_Set_nonpositive; [simpl; apply lookup_insert_eq |].
    unfold effectiveDuration. simpl. lia. }
  split; [done |]. split; [done |]. split; [done |].
  intros os now Hos. apply cache_Get_never. by apply execs_keep_never.
Qed.

(** ** Add *)

(** C3. [Add(k, v2, d)] on a key whose entry is present and not expired
    (by the test of [get], at the clock reading [now] of that test)
    returns the error "item k already exists" and leaves the cache as it
    was, so [k] keeps its value and its expiration; on a key that is
    absent or whose entry is expired it returns no error and the cache is
    the one [Set(k, v2, d)] produces (at the clock reading [now'] of
    [set]). *)
Theorem cache_Add_exists_or_sets c now now' k v2 d :
  (forall item, items c !! k = Some item -> expiredInline item now = false ->
     cache_Add c now now' k v2 d = (c, Some (errAlreadyExists k)) /\
     items (cache_Add c now now' k v2 d).1 !! k = Some item) /\
  (items c !! k = None \/
   (exists item, items c !! k = Some item /\ expiredInline item now = true) ->
     cache_Add c now now' k v2 d = (cache_Set c now' k v2 d, None)).
Proof.
  unfold cache_Add. rewrite cache_get_found. split.
  - intros item Hk Hlive. by rewrite Hk, Hlive.
  - intros [Hk | (item & Hk & Hexp)]; rewrite Hk; [done |]. by rewrite Hexp.
Qed.

(** ** The typed increments *)

Lemma typedIncrement_incrementInteger ik :
  typedIncrement ik = incrementInteger (Callback := Callback) ik.
Proof. by destruct ik. Qed.

(** The shared body on an entry that is present, not expired and of the
    asserted type: the new value is stored under the old expiration. *)
Lemma incrementTyped_stores {A : Type} (assertion : dyn -> option A)
  (inj : A -> dyn) (plus : A -> A -> A) (zeroA : A) (ty : string)
  c now k item (rv n : A) :
  items c !! k = Some item -> Item_Expired item now = false ->
  assertion (to_any (Object item)) = Some rv ->
  numeric (inj (plus rv n)) = true ->
  dynType (inj (plus rv n)) = dynType (to_any (Object item)) ->
  exists x',
    to_any x' = inj (plus rv n) /\
    incrementTyped assertion inj plus zeroA ty c now k n
    = (with_items c (<[k := mkItem x' (Expiration item)]> (items c)),
       (plus rv n, None)).
Proof.
  intros Hk Hlive Hrv Hnum Hty.
  destruct (assert_numeric (Object item) _ Hnum Hty) as (x' & Hx' & Hany).
  exists x'. split; [done |].
  unfold incrementTyped, Item_SetValue. by rewrite Hk, Hlive, Hrv, Hx'.
Qed.

(** C4. On a key whose entry is present, not expired (by [Expired], at
    the clock reading of the call) and holds a value of the numeric type
    of the specialization, each typed increment ([IncrementInt], ...,
    [IncrementUint64], [IncrementFloat32], [IncrementFloat64]) returns
    the old value plus [n] with no error, and the cache after the call
    differs from the cache before in the entry of [k] only, which holds
    that sum under the expiration the entry had before.  For an integer
    type the sum [nv] is the value of the type congruent to [old + n]
    modulo 2 to the width, hence the integer [old + n] itself whenever
    that is a value of the type; for the floating-point types it is the
    IEEE 754 sum. *)
Theorem typed_increment_adds_in_place c now k item :
  items c !! k = Some item -> Item_Expired item now = false ->
  (forall ik old n, to_any (Object item) = DInt ik old ->
     exists (nv : Z) x',
       Num.in_range ik nv /\
       nv mod 2 ^ Num.bits ik = (old + n) mod 2 ^ Num.bits ik /\
       (Num.in_range ik (old + n) -> nv = old + n) /\
       to_any x' = DInt ik nv /\
       typedIncrement ik c now k n
       = (with_items c (<[k := mkItem x' (Expiration item)]> (items c)),
          (nv, None))) /\
  (forall old n, to_any (Object item) = DFloat32 old ->
     exists x',
       to_any x' = DFloat32 (SFadd 24 128 old n) /\
       cache_IncrementFloat32 c now k n
       = (with_items c (<[k := mkItem x' (Expiration item)]> (items c)),
          (SFadd 24 128 old n, None))) /\
  (forall old n, to_any (Object item) = DFloat64 old ->
     exists x',
       to_any x' = DFloat64 (SFadd 53 1024 old n) /\
       cache_IncrementFloat64 c now k n
       = (with_items c (<[k := mkItem x' (Expiration item)]> (items c)),
          (SFadd 53 1024 old n, None))).
Proof.
  intros Hk Hlive. split; [| split].
  - intros ik old n Hold. rewrite typedIncrement_incrementInteger.
    destruct (incrementTyped_stores (asInt ik) (DInt ik) (Num.add ik) 0
                (Num.name ik) c now k item old n Hk Hlive)
      as (x' & Hx' & Hinc).
    { rewrite Hold. simpl. by rewrite decide_True. }
    { done. }
    { by rewrite Hold. }
    exists (Num.add ik old n), x'. unfold Num.add in *.
    split; [apply wrap_range |]. split; [apply wrap_mod |].
    split; [apply wrap_in_range |]. done.
  - intros old n Hold.
    apply (incrementTyped_stores asFloat32 DFloat32 Num.add32);
      rewrite ?Hold; done.
  - intros old n Hold.
    apply (incrementTyped_stores asFloat64 DFloat64 Num.add64);
      rewrite ?Hold; done.
Qed.

(** ** Lazy expiration *)

Lemma foundCount_le c now : (foundCount c now <= size (items c))%nat.
Proof. unfold foundCount. apply map_subseteq_size, map_filter_subseteq. Qed.

Lemma unsweptCache_items :
  items (unsweptCache (Callback := Callback)) = {[ "a"%string := mkItem zero 1 ]}.
Proof. reflexivity. Qed.

(** C5. [Get(k)] on a key whose entry is present and expired (by the
    test [Get] makes, which is [Expired] on every entry whose expiration
    is not negative) returns [false] with the zero value and the cache
    as it was, entry included; [Get] never changes the cache; hence
    [ItemCount], the size of the mapping, is at least the number of keys
    [Get] finds and can exceed it: it is 1 on a cache whose one entry has
    expired, where [Get] finds no key. *)
Theorem cache_Get_expired_lazy :
  (forall c now k item,
     items c !! k = Some item -> expiredInline item now = true ->
     cache_Get c now k = (c, (zero, false)) /\
     items (cache_Get c now k).1 !! k = Some item) /\
  (forall c now k,
     (cache_Get c now k).1 = c /\
     (cache_ItemCount (cache_Get c now k).1).2 = (cache_ItemCount c).2) /\
  (forall c now, (foundCount c now <= (cache_ItemCount c).2)%nat) /\
  (exists c now,
     (cache_ItemCount c).2 = 1%nat /\ foundCount c now = 0%nat /\
     (foundCount c now < (cache_ItemCount c).2)%nat).
Proof.
  split; [| split; [| split]].
  - intros c now k item Hk Hexp. rewrite cache_Get_lookup, Hk, Hexp. by simpl.
  - intros c now k. by rewrite cache_Get_unchanged.
  - intros c now. apply foundCount_le.
  - exists (unsweptCache (Callback := Callback)), 2.
    assert (H1 : (cache_ItemCount (unsweptCache (Callback := Callback))).2 = 1%nat).
    { unfold cache_ItemCount. cbn [snd]. rewrite unsweptCache_items.
      apply map_size_singleton. }
    assert (H0 : foundCount (unsweptCache (Callback := Callback)) 2 = 0%nat).
    { unfold foundCount. rewrite unsweptCache_items.
      rewrite map_filter_singleton_False; [apply map_size_empty |].
      simpl. rewrite cache_Get_lookup, unsweptCache_items.
      rewrite lookup_singleton_eq. simpl. discriminate. }
    rewrite H0, H1. repeat split. lia.
Qed.

(** ** Delete and Flush *)

(** C6. With a callback [f] registered, [Delete(k)] on a key that has an
    entry, expired or not, removes the entry and calls [f] once, with [k]
    and the value the entry held, and makes no other call; [Flush]
    leaves an empty mapping, whatever the number of entries, and calls
    nothing. *)
Theorem cache_Delete_calls_once_Flush_never :
  (forall c k item (f : Callback),
     items c !! k = Some item -> onEvicted c = Some f ->
     cache_Delete c k
     = (with_items c (delete k (items c)), [Call f k (Object item)])) /\
  (forall c,
     (cache_Flush c).2 = [] /\
     items (cache_Flush c).1 = ∅ /\
     (cache_ItemCount (cache_Flush c).1).2 = 0%nat /\
     onEvicted (cache_Flush c).1 = onEvicted c).
Proof.
  split.
  - intros c k item f Hk Hf. unfold cache_Delete, cache_delete, callOnEvicted.
    rewrite Hf, Hk. simpl. by rewrite Hf.
  - intros c. simpl. by repeat split.
Qed.

(** ** Load *)

Lemma loadLoop_lookup_ne clock c k k' (v : Item T) :
  k' <> k -> items (loadLoop clock c (k', v)) !! k = items c !! k.
Proof.
  intros Hne. unfold loadLoop.
  destruct (items c !! k') as [ov |]; [destruct (Item_Expired ov (clock k')) |];
    simpl; rewrite ?lookup_insert_ne by done; done.
Qed.

Lemma loadLoop_lookup_eq clock c k (v : Item T) :
  items (loadLoop clock c (k, v)) !! k = Some (merged clock (items c !! k) k v).
Proof.
  unfold loadLoop, merged.
  destruct (items c !! k) as [ov |] eqn:Hk;
    [destruct (Item_Expired ov (clock k)) |];
    simpl; rewrite ?lookup_insert_eq; done.
Qed.

Lemma loadLoop_absent clock (l : list (string * Item T)) c k :
  k ∉ l.*1 -> items (foldl (loadLoop clock) c l) !! k = items c !! k.
Proof.
  revert c. induction l as [| [k' v'] l IH]; intros c Hk; [done |].
  rewrite fmap_cons in Hk. apply not_elem_of_cons in Hk as [Hne Hk].
  cbn [foldl fst] in *. rewrite IH by done. by apply loadLoop_lookup_ne.
Qed.

(** The loop over any sequence of entries with distinct keys, as [range]
    over a map yields them in whatever order. *)
Lemma loadLoop_present clock (l : list (string * Item T)) c k (v : Item T) :
  NoDup l.*1 -> (k, v) ∈ l ->
  items (foldl (loadLoop clock) c l) !! k
  = Some (merged clock (items c !! k) k v).
Proof.
  revert c. induction l as [| [k' v'] l IH]; intros c Hnd Hin.
  - by apply elem_of_nil in Hin.
  - rewrite fmap_cons in Hnd. apply NoDup_cons in Hnd as [Hk' Hnd].
    cbn [foldl fst] in *.
    apply elem_of_cons in Hin as [Heq | Hin].
    + injection Heq as <- <-.
      rewrite loadLoop_absent by done. apply loadLoop_lookup_eq.
    + assert (Hne : k' <> k).
      { intros ->. apply Hk'. apply list_elem_of_fmap. by exists (k, v). }
      rewrite IH by done. by rewrite loadLoop_lookup_ne.
Qed.

Lemma loadLoop_fields clock (l : list (string * Item T)) c :
  defaultExpiration (foldl (loadLoop clock) c l) = defaultExpiration c /\
  onEvicted (foldl (loadLoop clock) c l) = onEvicted c /\
  janitor (foldl (loadLoop clock) c l) = janitor c.
Proof.
  revert c. induction l as [| [k v] l IH]; intros c; [done |].
  cbn [foldl]. destruct (IH (loadLoop clock c (k, v))) as (-> & -> & ->).
  unfold loadLoop.
  destruct (items c !! k) as [ov |]; [destruct (Item_Expired ov (clock k)) |];
    done.
Qed.

Lemma cache_ext c1 c2 :
  defaultExpiration c1 = defaultExpiration c2 -> items c1 = items c2 ->
  onEvicted c1 = onEvicted c2 -> janitor c1 = janitor c2 -> c1 = c2.
Proof. destruct c1, c2. simpl. by intros -> -> -> ->. Qed.

(** The result of the loop of [Load] does not depend on the order in
    which [range] yields the decoded entries. *)
Lemma loadLoop_order clock (l1 l2 : list (string * Item T)) c :
  NoDup l1.*1 -> l1 ≡ₚ l2 ->
  foldl (loadLoop clock) c l1 = foldl (loadLoop clock) c l2.
Proof.
  intros Hnd Hperm.
  assert (Hnd2 : NoDup l2.*1) by by rewrite <- Hperm.
  destruct (loadLoop_fields clock l1 c) as (Hd1 & He1 & Hj1).
  destruct (loadLoop_fields clock l2 c) as (Hd2 & He2 & Hj2).
  apply cache_ext; [congruence | | congruence | congruence].
  apply map_eq. intros k.
  destruct (decide (k ∈ l1.*1)) as [Hin | Hout].
  - apply list_elem_of_fmap in Hin as ([k' v] & -> & Hin). simpl.
    rewrite (loadLoop_present clock l1 c k' v) by done.
    rewrite (loadLoop_present clock l2 c k' v); [done | done |].
    by rewrite <- Hperm.
  - rewrite loadLoop_absent by done.
    rewrite loadLoop_absent; [done |]. by rewrite <- Hperm.
Qed.

(** C7. When the decoder returns no error, [Load] returns none, and the
    mapping after it holds, at every key of the decoded mapping, the
    existing entry if there was one not expired (by [Expired], at the
    clock reading of the iteration for that key) and the decoded entry if
    the key was absent or its entry expired; every other key and field
    of the cache is as before.  When the decoder returns an error,
    [Load] returns it and the cache is as before. *)
Theorem cache_Load_merges_or_fails (Reader : Type)
  (gobDecode : Reader -> gmap string (Item T) * option error)
  c (clock : string -> Z) (r : Reader) :
  (forall decoded, gobDecode r = (decoded, None) ->
     (cache_Load Reader gobDecode c clock r).2 = None /\
     (forall k incoming existing,
        decoded !! k = Some incoming -> items c !! k = Some existing ->
        Item_Expired existing (clock k) = false ->
        items (cache_Load Reader gobDecode c clock r).1 !! k = Some existing) /\
     (forall k incoming,
        decoded !! k = Some incoming ->
        items c !! k = None \/
        (exists existing, items c !! k = Some existing /\
                          Item_Expired existing (clock k) = true) ->
        items (cache_Load Reader gobDecode c clock r).1 !! k = Some incoming) /\
     (forall k, decoded !! k = None ->
        items (cache_Load Reader gobDecode c clock r).1 !! k = items c !! k) /\
     defaultExpiration (cache_Load Reader gobDecode c clock r).1
       = defaultExpiration c /\
     onEvicted (cache_Load Reader gobDecode c clock r).1 = onEvicted c /\
     janitor (cache_Load Reader gobDecode c clock r).1 = janitor c) /\
  (forall decoded e, gobDecode r = (decoded, Some e) ->
     cache_Load Reader gobDecode c clock r = (c, Some e)).
Proof.
  unfold cache_Load. split.
  - intros decoded Hdec. rewrite Hdec. cbn [fst snd].
    split; [done |]. split; [| split; [| split]].
    + intros k incoming existing Hin Hk Hlive.
      rewrite (loadLoop_present clock _ c k incoming).
      * unfold merged. by rewrite Hk, Hlive.
      * apply NoDup_fst_map_to_list.
      * by apply elem_of_map_to_list.
    + intros k incoming Hin Hk.
      rewrite (loadLoop_present clock _ c k incoming).
      * unfold merged. destruct Hk as [-> | (existing & -> & ->)]; done.
      * apply NoDup_fst_map_to_list.
      * by apply elem_of_map_to_list.
    + intros k Hk. apply loadLoop_absent.
      intros ((k' & v') & Heq & Hin%elem_of_map_to_list)%list_elem_of_fmap.
      simpl in Heq. subst k'. congruence.
    + apply loadLoop_fields.
  - intros decoded e Hdec. by rewrite Hdec.
Qed.

(** ** The janitor *)

Implicit Types s : @jstate T Callback.

Lemma janitor_Run_fun_spec s e s' :
  janitor_Run s e s' <-> janitor_Run_fun s e = Some s'.
Proof.
  split.
  - by intros [c calls n now | c calls n].
  - destruct s as [[] c calls n], e as [now |]; simpl; intros [= <-];
      constructor.
Qed.

Lemma janitor_Run_InLoop s e s' : janitor_Run s e s' -> j_control s = InLoop.
Proof. by intros []. Qed.

Lemma janitor_Run_Stop s s' :
  janitor_Run s Stop s' -> j_control s' = Returned.
Proof. intros H. by inversion H. Qed.

Lemma system_step_Returned s e s' :
  system_step s e s' -> j_control s = Returned ->
  isClient e /\ j_control s' = Returned /\
  j_sweeps s' = j_sweeps s /\ j_calls s' = j_calls s.
Proof.
  intros [s0 e0 s0' Hstep | ctl c calls n o] Hret.
  - apply janitor_Run_InLoop in Hstep. congruence.
  - split; [by exists o | done].
Qed.

Lemma system_run_Returned s es s' :
  system_run s es s' -> j_control s = Returned ->
  j_control s' = Returned /\ j_sweeps s' = j_sweeps s /\
  j_calls s' = j_calls s /\ Forall isClient es.
Proof.
  induction 1 as [s | s e s1 es s2 Hstep _ IH]; intros Hret; [done |].
  destruct (system_step_Returned _ _ _ Hstep Hret) as (He & Hret1 & Hn & Hc).
  destruct (IH Hret1) as (? & ? & ? & ?).
  repeat split; [done | congruence | congruence | by constructor].
Qed.

Lemma system_run_app s pre post s' :
  system_run s (pre ++ post) s' ->
  exists s1, system_run s pre s1 /\ system_run s1 post s'.
Proof.
  revert s. induction pre as [| e pre IH]; intros s H.
  - exists s. split; [constructor | done].
  - inversion H as [| ? ? s0 ? ? Hstep Hrest]; subst.
    destruct (IH _ Hrest) as (s1 & Hpre & Hpost).
    exists s1. split; [by econstructor | done].
Qed.

(** [newCacheWithJanitor] starts a janitor, and attaches the finalizer
    that stops it, exactly for a positive cleanup interval. *)
Lemma newCacheWithJanitor_janitor (de ci : Z) (m : gmap string (Item T)) :
  let C := newCacheWithJanitor (Callback := Callback) de ci m in
  (0 < ci ->
   janitor (embedded C) = Some (mkJanitor ci) /\ finalizer C = true /\
   startedJanitor C = Some (mkJstate InLoop (embedded C) [] 0)) /\
  (ci <= 0 ->
   janitor (embedded C) = None /\ finalizer C = false /\
   startedJanitor C = None).
Proof.
  unfold newCacheWithJanitor, startedJanitor.
  destruct (Z.gtb_spec ci 0); simpl; split; intros; (done || lia).
Qed.

(** C9. The goroutine of the janitor that has received the stop signal
    has returned and takes no further step of its loop.  In every
    execution of the janitor beside the clients of the cache, whatever
    happens from a state where the janitor has returned is a call by a
    client: the janitor stays returned and the number of [DeleteExpired]
    it has run and the callback calls it has made stay what they were.
    In particular every event after a stop signal is a client's, none a
    tick, and the sweeps of the janitor are those made before the stop. *)
Theorem janitor_stopped_is_terminal :
  (forall s e s', j_control s = Returned -> ~ janitor_Run s e s') /\
  (forall s es s',
     j_control s = Returned -> system_run s es s' ->
     j_control s' = Returned /\ j_sweeps s' = j_sweeps s /\
     j_calls s' = j_calls s /\ Forall isClient es) /\
  (forall s pre post s',
     system_run s (pre ++ Janitor Stop :: post) s' ->
     j_control s' = Returned /\ Forall isClient post /\
     exists s1, system_run s pre s1 /\
                j_sweeps s' = j_sweeps s1 /\ j_calls s' = j_calls s1).
Proof.
  split; [| split].
  - intros s e s' Hret Hstep. apply janitor_Run_InLoop in Hstep. congruence.
  - intros s es s' Hret Hrun. by apply system_run_Returned.
  - intros s pre post s' Hrun.
    apply system_run_app in Hrun as (s1 & Hpre & Hpost).
    inversion Hpost as [| ? ? s2 ? ? Hstop Hrest]; subst.
    inversion Hstop as [? ? ? Hj |]; subst.
    pose proof (janitor_Run_Stop _ _ Hj) as Hret.
    destruct (system_run_Returned _ _ _ Hrest Hret) as (Hc & Hn & Hcalls & Hcl).
    split; [done |]. split; [done |].
    exists s1. split; [done |]. rewrite Hn, Hcalls. by inversion Hj.
Qed.

End Properties.

(** * Further properties of the methods *)

Section Further.
Context {T : Type} `{GT : GoType T} {Callback : Type}.

Local Abbreviation cacheT := (cache T Callback).

Implicit Types (c : cacheT) (k : string) (v x : T) (item : Item T).

(** ** Frame: calls on other keys *)

Lemma expiredInline_mono item now now' :
  now <= now' -> expiredInline item now = true ->
  expiredInline item now' = true.
Proof.
  unfold expiredInline. intros Hle [H1 H2]%andb_true_iff.
  rewrite H1. simpl. apply Z.gtb_lt in H2. apply Z.gtb_lt. lia.
Qed.

Lemma cache_DeleteExpired_lookup c now k :
  items (cache_DeleteExpired c now).1 !! k
  = match items c !! k with
    | Some item => if expiredInline item now then None else Some item
    | None => None
    end.
Proof.
  rewrite cache_DeleteExpired_items, map_lookup_filter.
  destruct (items c !! k) as [item |]; [| done]. simpl.
  destruct (expiredInline item now).
  - by rewrite option_guard_False.
  - by rewrite option_guard_True.
Qed.

(** A call that does not address [k] leaves the entry of [k] as it is,
    unless the call is a sweep at a clock reading where the entry is
    expired, which removes it. *)
Lemma exec_lookup_frame c (o : op) k :
  addresses k o = false ->
  items (exec c o) !! k = items c !! k \/
  (exists now item,
     o = OpDeleteExpired now /\ items c !! k = Some item /\
     expiredInline item now = true /\ items (exec c o) !! k = None).
Proof.
  intros Ho. destruct o; cbn [exec addresses] in Ho |- *;
    try (apply bool_decide_eq_false in Ho); try done.
  - left. by rewrite cache_Set_lookup_ne.
  - left. unfold cache_SetDefault. by rewrite cache_Set_lookup_ne.
  - left. unfold cache_Add. rewrite cache_get_found.
    destruct (items c !! k0) as [item |]; [destruct (expiredInline item now) |];
      simpl; rewrite ?lookup_insert_ne by done; done.
  - left. unfold cache_Replace. rewrite cache_get_found.
    destruct (items c !! k0) as [item |]; [destruct (expiredInline item now) |];
      simpl; rewrite ?lookup_insert_ne by done; done.
  - left. by rewrite cache_Get_unchanged.
  - left. unfold incrementInteger, incrementTyped.
    destruct (items c !! k0) as [item |]; [| done].
    destruct (Item_Expired item now); [done |].
    destruct (asInt ik (to_any (Object item))); [| done].
    simpl. by rewrite lookup_insert_ne.
  - left. unfold cache_Delete.
    pose proof (cache_delete_items c k0) as Hd.
    destruct (cache_delete c k0) as [c1 [ov evicted]]. simpl in Hd.
    assert (items c1 !! k = items c !! k).
    { rewrite Hd. by rewrite lookup_delete_ne. }
    by destruct evicted.
  - rewrite cache_DeleteExpired_lookup.
    destruct (items c !! k) as [item |] eqn:Hk; [| by left].
    destruct (expiredInline item now) eqn:Hexp; [| by left].
    right. by exists now, item.
  - by left.
  - by left.
Qed.

(** X1. A call that does not address [k] and is no sweep leaves the
    entry of [k] exactly as it is; a sweep at the clock reading [now]
    leaves it as it is when it is not expired at [now] and removes it
    when it is. *)
Theorem exec_frame c (o : op) k :
  addresses k o = false ->
  ((forall now, o <> OpDeleteExpired now) ->
   items (exec c o) !! k = items c !! k) /\
  (forall now, o = OpDeleteExpired now ->
   items (exec c o) !! k
   = match items c !! k with
     | Some item => if expiredInline item now then None else Some item
     | None => None
     end).
Proof.
  intros Ho. split.
  - intros Hsweep.
    destruct (exec_lookup_frame c o k Ho) as [H | (now & _ & -> & _)]; [done |].
    by destruct (Hsweep now).
  - intros now ->. cbn [exec]. apply cache_DeleteExpired_lookup.
Qed.

(** A call, [Load] included, that does not address [k] leaves the entry
    of [k] as it is, unless it is a sweep at a clock reading where the
    entry is expired, which removes it. *)
Lemma lexec_lookup_frame (Reader : Type)
  (gobDecode : Reader -> gmap string (Item T) * option error)
  c (o : lop Reader) k :
  laddresses Reader gobDecode k o = false ->
  items (lexec Reader gobDecode c o) !! k = items c !! k \/
  (exists now item,
     o = Plain Reader (OpDeleteExpired now) /\ items c !! k = Some item /\
     expiredInline item now = true /\
     items (lexec Reader gobDecode c o) !! k = None).
Proof.
  intros Ho. destruct o as [o | clock r]; cbn [lexec laddresses] in *.
  - destruct (exec_lookup_frame c o k Ho)
      as [H | (now & item & -> & Hk & Hexp & Hnone)]; [by left |].
    right. by exists now, item.
  - left. unfold cache_Load.
    destruct (gobDecode r) as [decoded [e |]]; [done |]. cbn [fst].
    apply bool_decide_eq_false in Ho. apply loadLoop_absent.
    intros ((k' & v') & Heq & Hin%elem_of_map_to_list)%list_elem_of_fmap.
    simpl in Heq. subst k'. apply Ho. by exists v'.
Qed.

(** X2. No entry is lost before it expires.  An entry of [k] that is not
    expired at the clock reading [now] is still found by [Get] at [now],
    with its value, after any sequence of calls of [op] and of [Load]
    that do not address [k] (a [Load] addresses the keys of the mapping
    it decodes) and whose sweeps read the clock at or before [now]. *)
Theorem live_entry_survives (Reader : Type)
  (gobDecode : Reader -> gmap string (Item T) * option error)
  (os : list (lop Reader)) c k item now :
  items c !! k = Some item -> expiredInline item now = false ->
  Forall (fun o => laddresses Reader gobDecode k o = false) os ->
  lsweepsBy Reader now os ->
  cache_Get (lexecs Reader gobDecode c os) now k
  = (lexecs Reader gobDecode c os, (Object item, true)).
Proof.
  intros Hk Hlive Hos Hsw.
  assert (Hk' : items (lexecs Reader gobDecode c os) !! k = Some item).
  { unfold lexecs, lsweepsBy in *. revert c Hk Hsw.
    induction Hos as [| o os Ho _ IH]; intros c Hk Hsw; [done |].
    apply Forall_cons in Hsw as [Ht Hsw]. cbn [foldl]. apply IH; [| done].
    destruct (lexec_lookup_frame Reader gobDecode c o k Ho)
      as [-> | (t & item' & -> & Hk2 & Hexp & _)]; [done |].
    assert (item' = item) as -> by congruence.
    destruct (expiredInline item now) eqn:Hnow; [done |].
    by rewrite (expiredInline_mono item t now Ht Hexp) in Hnow. }
  by rewrite cache_Get_lookup, Hk', Hlive.
Qed.

(** X3. An expired entry does not come back by itself.  If the entry of
    [k] is expired at [now], [Get(k)] finds nothing at any [now' >= now]
    after any sequence of calls of [op] and of [Load] that do not address
    [k] (a [Load] addresses the keys of the mapping it decodes, and a
    [Load] of data with an entry for [k] does overwrite an expired entry
    of [k]). *)
Theorem expired_entry_stays_gone (Reader : Type)
  (gobDecode : Reader -> gmap string (Item T) * option error)
  (os : list (lop Reader)) c k item now now' :
  items c !! k = Some item -> expiredInline item now = true ->
  now <= now' ->
  Forall (fun o => laddresses Reader gobDecode k o = false) os ->
  cache_Get (lexecs Reader gobDecode c os) now' k
  = (lexecs Reader gobDecode c os, (zero, false)).
Proof.
  intros Hk Hexp Hle Hos.
  assert (Hk' : items (lexecs Reader gobDecode c os) !! k = None \/
                items (lexecs Reader gobDecode c os) !! k = Some item).
  { unfold lexecs.
    assert (Hinv : items c !! k = None \/ items c !! k = Some item) by by right.
    clear Hk. revert c Hinv.
    induction Hos as [| o os Ho _ IH]; intros c Hinv; [done |].
    cbn [foldl]. apply IH.
    destruct (lexec_lookup_frame Reader gobDecode c o k Ho)
      as [-> | (_ & _ & _ & _ & _ & ->)]; [done | by left]. }
  rewrite cache_Get_lookup. destruct Hk' as [-> | ->]; [done |].
  by rewrite (expiredInline_mono item now now' Hle Hexp).
Qed.

(** ** Replace, and Add against Replace *)

(** X4. [Replace(k, x, d)] on a key that is absent or whose entry is
    expired (by the test of [get]) returns the error "item k doesn't
    exist" and leaves the cache as it was: it does not create the key.
    On a key whose entry is present and not expired it returns no error
    and the cache is the one [Set(k, x, d)] produces. *)
Theorem cache_Replace_missing_or_sets c now now' k x d :
  (items c !! k = None \/
   (exists item, items c !! k = Some item /\ expiredInline item now = true) ->
     cache_Replace c now now' k x d = (c, Some (errDoesntExist k))) /\
  (forall item, items c !! k = Some item -> expiredInline item now = false ->
     cache_Replace c now now' k x d = (cache_Set c now' k x d, None)).
Proof.
  unfold cache_Replace. rewrite cache_get_found. split.
  - intros [Hk | (item & Hk & Hexp)]; rewrite Hk; [done |]. by rewrite Hexp.
  - intros item Hk Hlive. by rewrite Hk, Hlive.
Qed.

(** X5. At the same clock readings exactly one of [Add] and [Replace]
    succeeds on a key; the one that succeeds produces the cache of [Set],
    the other returns its error and the cache as it was. *)
Theorem cache_Add_xor_Replace c now now' k x d :
  (cache_Add c now now' k x d = (cache_Set c now' k x d, None) /\
   cache_Replace c now now' k x d = (c, Some (errDoesntExist k))) \/
  (cache_Replace c now now' k x d = (cache_Set c now' k x d, None) /\
   cache_Add c now now' k x d = (c, Some (errAlreadyExists k))).
Proof.
  unfold cache_Add, cache_Replace. rewrite cache_get_found.
  destruct (items c !! k) as [item |]; [| by left].
  destruct (expiredInline item now); [by left | by right].
Qed.

(** ** GetWithExpiration *)

(** X6. [GetWithExpiration] leaves the cache as it is, finds a key
    exactly when [Get] does, returns the value [get] returns, and returns
    a time other than the zero time exactly when it finds an entry with a
    positive expiration, which is then the time returned. *)
Theorem cache_GetWithExpiration_agrees c now k :
  (cache_GetWithExpiration c now k).1 = c /\
  (cache_GetWithExpiration c now k).2.2 = (cache_Get c now k).2.2 /\
  ((cache_GetWithExpiration c now k).2.1.1,
   (cache_GetWithExpiration c now k).2.2) = (cache_get c now k).2 /\
  (forall e, (cache_GetWithExpiration c now k).2.1.2 = Time_Unix e <->
     (cache_GetWithExpiration c now k).2.2 = true /\ 0 < e /\
     exists item, items c !! k = Some item /\ Expiration item = e).
Proof.
  unfold cache_GetWithExpiration, cache_Get, cache_get.
  destruct (items c !! k) as [item |] eqn:Hk.
  - destruct (Z.gtb_spec (Expiration item) 0) as [Hpos | Hnpos].
    + destruct (now >? Expiration item); simpl;
        (split; [done |]; split; [done |]; split; [done |]); intros e; split.
      * done.
      * by intros [? _].
      * intros [= <-]. split; [done |]. split; [done |]. by exists item.
      * by intros (_ & _ & item' & [= <-] & <-).
    + simpl. (split; [done |]; split; [done |]; split; [done |]).
      intros e; split; [done |].
      intros (_ & He & item' & [= <-] & <-). lia.
  - simpl. (split; [done |]; split; [done |]; split; [done |]).
    intros e; split; [done |]. by intros [? _].
Qed.

(** X7. After [Set(k, v, d)] with [d > 0] at a clock reading [t0] after
    the Unix epoch, with [t0 + d] an [int64], [GetWithExpiration(k)] at
    any reading up to [t0 + d] returns [v], the time [t0 + d] and [true].
    After [Set] with a duration in effect that is not positive it
    returns [v], the zero time and [true] at every reading. *)
Theorem cache_GetWithExpiration_after_Set c t0 now k v d :
  (Num.is_int64 t0 -> 0 <= t0 -> 0 < d -> t0 + d < 2 ^ 63 -> now <= t0 + d ->
   cache_GetWithExpiration (cache_Set c t0 k v d) now k
   = (cache_Set c t0 k v d, (to_any v, Time_Unix (t0 + d), true))) /\
  (effectiveDuration c d <= 0 ->
   cache_GetWithExpiration (cache_Set c t0 k v d) now k
   = (cache_Set c t0 k v d, (to_any v, Time_zero, true))).
Proof.
  split.
  - intros Ht H0 Hd Hfit Hnow.
    assert (Hk : items (cache_Set c t0 k v d) !! k = Some (mkItem v (t0 + d))).
    { rewrite cache_Set_stores. unfold effectiveDuration, DefaultExpiration.
      destruct (Z.eqb_spec d 0); [lia |].
      destruct (Z.gtb_spec d 0); [| lia]. simpl.
      rewrite lookup_insert_eq. unfold UnixNano_after.
      rewrite wrap_signed_in_range; [done |]. unfold Num.is_int64 in *. lia. }
    unfold cache_GetWithExpiration. rewrite Hk. simpl.
    destruct (Z.gtb_spec (t0 + d) 0); [| lia].
    by destruct (Z.gtb_spec now (t0 + d)); [lia |].
  - intros Heff. rewrite (cache_Set_nonpositive _ _ _ _ _ Heff).
    unfold cache_GetWithExpiration. simpl. by rewrite lookup_insert_eq.
Qed.

(** ** Set, Delete and the other keys *)

(** X8. [Set(k, ...)] changes nothing for another key: [Get(k')] returns
    what it returned before; and [ItemCount] grows by one exactly when
    the mapping had no entry for [k], expired or not. *)
Theorem cache_Set_frame_count c t0 k x d :
  (forall k' now, k' <> k ->
     (cache_Get (cache_Set c t0 k x d) now k').2 = (cache_Get c now k').2) /\
  (items c !! k = None ->
     (cache_ItemCount (cache_Set c t0 k x d)).2 = S (cache_ItemCount c).2) /\
  (is_Some (items c !! k) ->
     (cache_ItemCount (cache_Set c t0 k x d)).2 = (cache_ItemCount c).2).
Proof.
  split; [| split].
  - intros k' now Hne. rewrite !cache_Get_lookup.
    rewrite (cache_Set_lookup_ne c t0 k' k x d) by done.
    destruct (items c !! k') as [item |]; [| done].
    by destruct (expiredInline item now).
  - intros Hk. rewrite cache_Set_stores. simpl. by apply map_size_insert_None.
  - intros Hk. rewrite cache_Set_stores. simpl.
    by apply map_size_insert_Some.
Qed.

(** X9. After [Delete(k)] the mapping has no entry for [k], so that
    [Get(k)] finds nothing at any clock reading, and every other key is
    as before.  [Delete] makes no call of the callback when the key has
    no entry or no callback is registered; on a key without entry it
    leaves the cache as it was. *)
Theorem cache_Delete_removes c k :
  items (cache_Delete c k).1 = delete k (items c) /\
  (forall now, cache_Get (cache_Delete c k).1 now k
               = ((cache_Delete c k).1, (zero, false))) /\
  (forall k', k' <> k ->
     items (cache_Delete c k).1 !! k' = items c !! k') /\
  (items c !! k = None \/ onEvicted c = None -> (cache_Delete c k).2 = []) /\
  (items c !! k = None -> (cache_Delete c k).1 = c).
Proof.
  assert (Hitems : items (cache_Delete c k).1 = delete k (items c)).
  { unfold cache_Delete. pose proof (cache_delete_items c k) as Hd.
    destruct (cache_delete c k) as [c1 [ov []]]; done. }
  split; [done |]. split; [| split; [| split]].
  - intros now. rewrite cache_Get_lookup, Hitems. by rewrite lookup_delete_eq.
  - intros k' Hne. rewrite Hitems. by apply lookup_delete_ne.
  - unfold cache_Delete, cache_delete.
    intros [Hk | Hf]; [rewrite Hk; by destruct (onEvicted c) | by rewrite Hf].
  - intros Hk. unfold cache_Delete, cache_delete. rewrite Hk.
    destruct c as [de m f j]. simpl in *.
    rewrite (delete_id m k Hk). by destruct f.
Qed.

(** ** DeleteExpired *)

Lemma flat_map_callOnEvicted c (f : Callback) (ev : list (string * T)) :
  onEvicted c = Some f ->
  flat_map (fun p => callOnEvicted c p.1 p.2) ev
  = (fun p => Call f p.1 p.2) <$> ev.
Proof.
  intros Hf. induction ev as [| [k y] ev IH]; [done |].
  simpl. unfold callOnEvicted at 1. rewrite Hf. simpl. by rewrite IH.
Qed.

(** The loop of the sweep over entries with distinct keys that the
    mapping holds: what it collects, and the fields it leaves alone. *)
Lemma deleteExpiredLoop_collects now (l : list (string * Item T))
  (st : cacheT * list (string * T)) :
  NoDup l.*1 ->
  (forall k item, (k, item) ∈ l -> items st.1 !! k = Some item) ->
  onEvicted (foldl (deleteExpiredLoop now) st l).1 = onEvicted st.1 /\
  defaultExpiration (foldl (deleteExpiredLoop now) st l).1
    = defaultExpiration st.1 /\
  janitor (foldl (deleteExpiredLoop now) st l).1 = janitor st.1 /\
  (foldl (deleteExpiredLoop now) st l).2
  = st.2 ++
    match onEvicted st.1 with
    | Some _ =>
        (fun kv => (kv.1, Object kv.2))
          <$> filter (fun kv => expiredInline kv.2 now = true) l
    | None => []
    end.
Proof.
  revert st. induction l as [| [k item] l IH]; intros [c ev] Hnd Hin.
  - cbn [foldl fst snd]. rewrite filter_nil, fmap_nil.
    destruct (onEvicted c); by rewrite app_nil_r.
  - rewrite fmap_cons in Hnd. apply NoDup_cons in Hnd as [Hk Hnd].
    assert (Hkc : items c !! k = Some item) by (apply Hin; left).
    assert (Hrest : forall k' item', (k', item') ∈ l ->
              delete k (items c) !! k' = Some item').
    { intros k' item' Hin'. rewrite lookup_delete_ne.
      - apply Hin. by right.
      - intros ->. apply Hk. apply list_elem_of_fmap. by exists (k', item'). }
    cbn [foldl]. unfold deleteExpiredLoop at 2 4 6 8.
    fold (expiredInline item now).
    destruct (expiredInline item now) eqn:Hexp.
    + rewrite filter_cons_True by done.
      unfold cache_delete. cbn [fst snd]. rewrite Hkc.
      destruct (onEvicted c) as [f |] eqn:Hf.
      * destruct (IH (with_items c (delete k (items c)), ev ++ [(k, Object item)])
                    Hnd Hrest) as (-> & -> & -> & ->).
        simpl. rewrite Hf. by rewrite <- app_assoc.
      * destruct (IH (with_items c (delete k (items c)), ev) Hnd Hrest)
          as (-> & -> & -> & ->).
        simpl. by rewrite Hf.
    + rewrite filter_cons_False by (simpl; congruence).
      apply (IH (c, ev) Hnd). intros k' item' Hin'. apply Hin. by right.
Qed.

(** The fields [DeleteExpired] leaves alone, and the calls it makes. *)
Lemma cache_DeleteExpired_calls c now :
  defaultExpiration (cache_DeleteExpired c now).1 = defaultExpiration c /\
  onEvicted (cache_DeleteExpired c now).1 = onEvicted c /\
  janitor (cache_DeleteExpired c now).1 = janitor c /\
  (cache_DeleteExpired c now).2
  = match onEvicted c with
    | Some f =>
        (fun kv => Call f kv.1 (Object kv.2))
          <$> filter (fun kv => expiredInline kv.2 now = true)
                (map_to_list (items c))
    | None => []
    end.
Proof.
  unfold cache_DeleteExpired.
  destruct (deleteExpiredLoop_collects now (map_to_list (items c)) (c, []))
    as (Hf & Hde & Hj & Hev).
  { apply NoDup_fst_map_to_list. }
  { intros k item Hin. by apply elem_of_map_to_list. }
  destruct (foldl (deleteExpiredLoop now) (c, []) (map_to_list (items c)))
    as [c1 ev]. simpl in *.
  split; [done |]. split; [done |]. split; [done |].
  destruct (onEvicted c) as [f |] eqn:Hc.
  - rewrite (flat_map_callOnEvicted c1 f ev Hf), Hev.
    rewrite <- list_fmap_compose. done.
  - by rewrite Hev.
Qed.

(** X10. [DeleteExpired] at the clock reading [now] leaves in the mapping
    exactly the entries that are not expired at [now] and changes no
    other field.  With a callback [f] registered it calls [f] once for
    each entry that was expired, with the key and the value of that
    entry, in the order the loop visits them, and makes no other call;
    without a callback it calls nothing. *)
Theorem cache_DeleteExpired_sweeps c now :
  items (cache_DeleteExpired c now).1
    = filter (fun kv => expiredInline kv.2 now = false) (items c) /\
  defaultExpiration (cache_DeleteExpired c now).1 = defaultExpiration c /\
  onEvicted (cache_DeleteExpired c now).1 = onEvicted c /\
  janitor (cache_DeleteExpired c now).1 = janitor c /\
  (cache_DeleteExpired c now).2
  = match onEvicted c with
    | Some f =>
        (fun kv => Call f kv.1 (Object kv.2))
          <$> filter (fun kv => expiredInline kv.2 now = true)
                (map_to_list (items c))
    | None => []
    end.
Proof.
  split; [apply cache_DeleteExpired_items |].
  destruct (cache_DeleteExpired_calls c now) as (Hde & Hf & Hj & Hcalls).
  by rewrite Hde, Hf, Hj, Hcalls.
Qed.

(** X11. A sweep at a clock reading where no entry is expired changes
    nothing and calls nothing; hence a second sweep, at a reading not
    after the first, changes nothing and calls nothing. *)
Theorem cache_DeleteExpired_twice c now now' :
  ((forall k item, items c !! k = Some item -> expiredInline item now = false) ->
   cache_DeleteExpired c now = (c, [])) /\
  (now' <= now ->
   cache_DeleteExpired (cache_DeleteExpired c now).1 now'
   = ((cache_DeleteExpired c now).1, [])).
Proof.
  assert (Hnone : forall (c0 : cacheT) t,
    (forall k item, items c0 !! k = Some item -> expiredInline item t = false) ->
    cache_DeleteExpired c0 t = (c0, [])).
  { intros c0 t Hlive.
    pose proof (cache_DeleteExpired_items c0 t) as Hi.
    destruct (cache_DeleteExpired_calls c0 t) as (Hde & Hf & Hj & Hcalls).
    assert (Hc : (cache_DeleteExpired c0 t).1 = c0).
    { apply cache_ext; try done. rewrite Hi. apply map_filter_id.
      intros k item Hk. simpl. exact (Hlive k item Hk). }
    assert (Hl : filter (fun kv : string * Item T => expiredInline kv.2 t = true)
                   (map_to_list (items c0)) = []).
    { destruct (filter _ (map_to_list (items c0))) as [| [k item] l] eqn:Hfl;
        [done |].
      assert (Hin : (k, item) ∈ filter
                (fun kv : string * Item T => expiredInline kv.2 t = true)
                (map_to_list (items c0))) by (rewrite Hfl; left).
      apply list_elem_of_filter in Hin as [Hexp Hin]. simpl in Hexp.
      apply elem_of_map_to_list in Hin. by rewrite (Hlive k item Hin) in Hexp. }
    rewrite Hl in Hcalls. destruct (cache_DeleteExpired c0 t) as [c1 calls].
    simpl in *. subst c1. f_equal. by destruct (onEvicted c0). }
  split; [apply Hnone |].
  intros Hle. apply Hnone. intros k item Hk.
  rewrite cache_DeleteExpired_lookup in Hk.
  destruct (items c !! k) as [item' |]; [| done].
  destruct (expiredInline item' now) eqn:Hexp; [done |].
  injection Hk as ->.
  destruct (expiredInline item now') eqn:Hexp'; [| done].
  by rewrite (expiredInline_mono item now' now Hle Hexp') in Hexp.
Qed.

(** X12. Right after a sweep [ItemCount] is exact: it is the number of
    keys that [Get] finds at the clock reading of the sweep, before the
    sweep as well as after it. *)
Theorem cache_ItemCount_after_sweep c now :
  (cache_ItemCount (cache_DeleteExpired c now).1).2 = foundCount c now /\
  foundCount (cache_DeleteExpired c now).1 now = foundCount c now.
Proof.
  assert (Hfound : forall c0 : cacheT,
    filter (fun kv => (cache_Get c0 now kv.1).2.2 = true) (items c0)
    = filter (fun kv => expiredInline kv.2 now = false) (items c0)).
  { intros c0. apply map_filter_ext. intros k item Hk. simpl.
    rewrite cache_Get_lookup, Hk. by destruct (expiredInline item now). }
  unfold foundCount, cache_ItemCount. cbn [snd].
  rewrite !Hfound, cache_DeleteExpired_items. split; [done |].
  f_equal. apply map_filter_id. intros k item Hk. simpl.
  by apply map_lookup_filter_Some in Hk as [_ Hk].
Qed.

(** ** Items and NewFrom *)

Lemma itemsLoop_eq now (m : gmap string (Item T)) k item :
  itemsLoop now m (k, item)
  = if expiredInline item now then m else <[k := item]> m.
Proof.
  unfold itemsLoop, expiredInline.
  destruct (Expiration item >? 0); [| done]. by destruct (now >? Expiration item).
Qed.

Lemma itemsLoop_absent now (l : list (string * Item T))
  (m : gmap string (Item T)) k :
  k ∉ l.*1 -> foldl (itemsLoop now) m l !! k = m !! k.
Proof.
  revert m. induction l as [| [k' item'] l IH]; intros m Hk; [done |].
  rewrite fmap_cons in Hk. apply not_elem_of_cons in Hk as [Hne Hk].
  cbn [foldl fst] in *. rewrite IH by done. rewrite itemsLoop_eq.
  destruct (expiredInline item' now); [done |]. by rewrite lookup_insert_ne.
Qed.

Lemma itemsLoop_present now (l : list (string * Item T))
  (m : gmap string (Item T)) k item :
  NoDup l.*1 -> (k, item) ∈ l ->
  foldl (itemsLoop now) m l !! k
  = if expiredInline item now then m !! k else Some item.
Proof.
  revert m. induction l as [| [k' item'] l IH]; intros m Hnd Hin.
  - by apply elem_of_nil in Hin.
  - rewrite fmap_cons in Hnd. apply NoDup_cons in Hnd as [Hk' Hnd].
    cbn [foldl fst] in *.
    apply elem_of_cons in Hin as [Heq | Hin].
    + injection Heq as <- <-. rewrite itemsLoop_absent by done.
      rewrite itemsLoop_eq. destruct (expiredInline item now); [done |].
      by rewrite lookup_insert_eq.
    + assert (Hne : k' <> k).
      { intros ->. apply Hk'. apply list_elem_of_fmap. by exists (k, item). }
      rewrite IH by done. rewrite itemsLoop_eq.
      destruct (expiredInline item' now); [done |].
      by rewrite lookup_insert_ne.
Qed.

Lemma cache_Items_lookup c now k :
  (cache_Items c now).2 !! k
  = match items c !! k with
    | Some item => if expiredInline item now then None else Some item
    | None => None
    end.
Proof.
  unfold cache_Items. cbn [snd].
  destruct (items c !! k) as [item |] eqn:Hk.
  - rewrite (itemsLoop_present now _ ∅ k item).
    + by destruct (expiredInline item now).
    + apply NoDup_fst_map_to_list.
    + by apply elem_of_map_to_list.
  - rewrite itemsLoop_absent; [done |].
    intros ((k' & item') & Heq & Hin%elem_of_map_to_list)%list_elem_of_fmap.
    simpl in Heq. subst k'. congruence.
Qed.

(** X13. [Items] leaves the cache as it is and returns a mapping that
    holds exactly the entries of the cache that are not expired at the
    clock reading of the call: its keys are the keys [Get] finds at that
    reading, each with the entry (value and expiration) the cache has. *)
Theorem cache_Items_snapshot c now :
  (cache_Items c now).1 = c /\
  (forall k item,
     (cache_Items c now).2 !! k = Some item <->
     items c !! k = Some item /\ expiredInline item now = false) /\
  (forall k,
     is_Some ((cache_Items c now).2 !! k) <-> (cache_Get c now k).2.2 = true).
Proof.
  split; [done |]. split.
  - intros k item. rewrite cache_Items_lookup.
    destruct (items c !! k) as [item' |]; [| split; [done | by intros [? _]]].
    destruct (expiredInline item' now) eqn:Hexp; split.
    + done.
    + intros [[= <-] Hlive]. congruence.
    + by intros [= <-].
    + by intros [? _].
  - intros k. rewrite cache_Items_lookup, cache_Get_lookup.
    destruct (items c !! k) as [item' |].
    + destruct (expiredInline item' now); simpl; split;
        (done || by intros [? ?] || eauto).
    + simpl. split; [by intros [? ?] | done].
Qed.

Lemma newCacheWithJanitor_items (de ci : Z) (m : gmap string (Item T)) :
  items (embedded (newCacheWithJanitor (Callback := Callback) de ci m)) = m.
Proof. unfold newCacheWithJanitor. by destruct (ci >? 0). Qed.

(** X14. Round trip through a snapshot.  A cache made by [NewFrom] from
    the mapping [Items] returned at the clock reading [now] answers
    [Get], at [now] and at every later reading, as the original cache
    does, for every key. *)
Theorem NewFrom_Items_round_trip c now now' (de ci : Z) k :
  now <= now' ->
  (cache_Get (Callback := Callback)
     (embedded (NewFrom de ci (cache_Items c now).2)) now' k).2
  = (cache_Get c now' k).2.
Proof.
  intros Hle. rewrite !cache_Get_lookup. unfold NewFrom.
  rewrite newCacheWithJanitor_items, cache_Items_lookup.
  destruct (items c !! k) as [item |]; [| done].
  destruct (expiredInline item now) eqn:Hexp.
  - by rewrite (expiredInline_mono item now now' Hle Hexp).
  - by destruct (expiredInline item now').
Qed.

(** ** Load on a fresh cache, and twice *)

(** X15. [Load] into a cache whose mapping is empty makes the mapping the
    decoded one; and loading the same data a second time, at the same
    clock readings, changes nothing more. *)
Theorem cache_Load_fresh_and_again (Reader : Type)
  (gobDecode : Reader -> gmap string (Item T) * option error)
  c (clock : string -> Z) (r : Reader) decoded :
  gobDecode r = (decoded, None) ->
  (items c = ∅ -> items (cache_Load Reader gobDecode c clock r).1 = decoded) /\
  cache_Load Reader gobDecode (cache_Load Reader gobDecode c clock r).1 clock r
  = cache_Load Reader gobDecode c clock r.
Proof.
  intros Hdec. unfold cache_Load. rewrite Hdec. cbn [fst snd].
  assert (Hlook : forall (c0 : cacheT) k,
    items (foldl (loadLoop clock) c0 (map_to_list decoded)) !! k
    = match decoded !! k with
      | Some incoming => Some (merged clock (items c0 !! k) k incoming)
      | None => items c0 !! k
      end).
  { intros c0 k. destruct (decoded !! k) as [incoming |] eqn:Hk.
    - apply loadLoop_present; [apply NoDup_fst_map_to_list |].
      by apply elem_of_map_to_list.
    - apply loadLoop_absent.
      intros ((k' & v') & Heq & Hin%elem_of_map_to_list)%list_elem_of_fmap.
      simpl in Heq. subst k'. congruence. }
  split.
  - intros Hempty. apply map_eq. intros k. rewrite Hlook, Hempty.
    rewrite lookup_empty. by destruct (decoded !! k).
  - f_equal.
    destruct (loadLoop_fields clock (map_to_list decoded) c) as (Hd1 & He1 & Hj1).
    destruct (loadLoop_fields clock (map_to_list decoded)
                (foldl (loadLoop clock) c (map_to_list decoded)))
      as (Hd2 & He2 & Hj2).
    apply cache_ext; [congruence | | congruence | congruence].
    apply map_eq. intros k. rewrite !Hlook.
    destruct (decoded !! k) as [incoming |]; [| done].
    f_equal. unfold merged.
    destruct (items c !! k) as [ov |].
    + destruct (Item_Expired ov (clock k)) eqn:Hov.
      * by destruct (Item_Expired incoming (clock k)).
      * by rewrite Hov.
    + by destruct (Item_Expired incoming (clock k)).
Qed.

(** ** The increment and decrement family *)

Lemma wrap_signed_64_mod ik z :
  Num.wrap_signed 64 z mod 2 ^ Num.bits ik = z mod 2 ^ Num.bits ik.
Proof.
  unfold Num.wrap_signed.
  rewrite (Z.mod_eq (z + 2 ^ (64 - 1)) (2 ^ 64)) by lia.
  set (q := (z + 2 ^ (64 - 1)) / 2 ^ 64).
  destruct ik; simpl Num.bits.
  all: try (replace (z + 2 ^ (64 - 1) - 2 ^ 64 * q - 2 ^ (64 - 1))
              with (z + (- q) * 2 ^ 64) by lia; apply Z_mod_plus_full).
  all: try (replace (z + 2 ^ (64 - 1) - 2 ^ 64 * q - 2 ^ (64 - 1))
              with (z + (- q * 2 ^ 56) * 2 ^ 8) by lia; apply Z_mod_plus_full).
  all: try (replace (z + 2 ^ (64 - 1) - 2 ^ 64 * q - 2 ^ (64 - 1))
              with (z + (- q * 2 ^ 48) * 2 ^ 16) by lia; apply Z_mod_plus_full).
  all: replace (z + 2 ^ (64 - 1) - 2 ^ 64 * q - 2 ^ (64 - 1))
         with (z + (- q * 2 ^ 32) * 2 ^ 32) by lia; apply Z_mod_plus_full.
Qed.

(** Adding [n] and subtracting it again in a fixed-width type gives the
    value back, wrap-around or not. *)
Lemma add_sub_cancel ik old n :
  Num.sub ik (Num.add ik old n) n = Num.wrap ik old.
Proof.
  unfold Num.sub, Num.add. apply wrap_congr.
  rewrite <- Zminus_mod_idemp_l, wrap_mod, Zminus_mod_idemp_l. f_equal. lia.
Qed.

(** Subtracting the narrowed [n] is adding the narrowed [-n], the
    negation taken in [int64]. *)
Lemma sub_is_add_negated ik value n :
  Num.sub ik value (Num.wrap ik n)
  = Num.add ik value (Num.wrap ik (Num.wrap_signed 64 (- n))).
Proof.
  unfold Num.sub, Num.add. apply wrap_congr.
  rewrite <- Zminus_mod_idemp_r, wrap_mod, Zminus_mod_idemp_r.
  rewrite <- Zplus_mod_idemp_r, wrap_mod, wrap_signed_64_mod, Zplus_mod_idemp_r.
  reflexivity.
Qed.

Lemma typedDecrement_decrementInteger ik :
  typedDecrement ik = decrementInteger (Callback := Callback) ik.
Proof. by destruct ik. Qed.

Lemma incrementTyped_not_found {A : Type} (assertion : dyn -> option A)
  (inj : A -> dyn) (plus : A -> A -> A) (zeroA : A) (ty : string)
  c now k (n : A) :
  items c !! k = None \/
  (exists item, items c !! k = Some item /\ Item_Expired item now = true) ->
  incrementTyped assertion inj plus zeroA ty c now k n
  = (c, (zeroA, Some (errNotFound k))).
Proof.
  unfold incrementTyped. intros [-> | (item & -> & ->)]; done.
Qed.

Lemma incrementTyped_wrong_type {A : Type} (assertion : dyn -> option A)
  (inj : A -> dyn) (plus : A -> A -> A) (zeroA : A) (ty : string)
  c now k item (n : A) :
  items c !! k = Some item -> Item_Expired item now = false ->
  assertion (to_any (Object item)) = None ->
  incrementTyped assertion inj plus zeroA ty c now k n
  = (c, (zeroA, Some (errNotAn k ty))).
Proof. unfold incrementTyped. by intros -> -> ->. Qed.

(** X16. Every typed increment and decrement on a key that is absent, or
    whose entry is expired (by [Expired], at the clock reading of the
    call), returns the zero of its type with the error "item k not
    found" and leaves the cache as it was. *)
Theorem typed_family_not_found c now k :
  items c !! k = None \/
  (exists item, items c !! k = Some item /\ Item_Expired item now = true) ->
  (forall ik n,
     typedIncrement ik c now k n = (c, (0, Some (errNotFound k))) /\
     typedDecrement ik c now k n = (c, (0, Some (errNotFound k)))) /\
  (forall n,
     cache_IncrementFloat32 c now k n
       = (c, (S754_zero false, Some (errNotFound k))) /\
     cache_DecrementFloat32 c now k n
       = (c, (S754_zero false, Some (errNotFound k))) /\
     cache_IncrementFloat64 c now k n
       = (c, (S754_zero false, Some (errNotFound k))) /\
     cache_DecrementFloat64 c now k n
       = (c, (S754_zero false, Some (errNotFound k)))).
Proof.
  intros Hk. split.
  - intros ik n.
    rewrite typedIncrement_incrementInteger, typedDecrement_decrementInteger.
    split; by apply incrementTyped_not_found.
  - intros n. repeat split; by apply incrementTyped_not_found.
Qed.

(** X17. A typed increment or decrement on an entry that is present and
    not expired but holds a value of another dynamic type than the one
    of the specialization returns the zero of its type with the error
    "the value for k is not an <type>" and leaves the cache as it was. *)
Theorem typed_family_wrong_type c now k item :
  items c !! k = Some item -> Item_Expired item now = false ->
  (forall ik n, dynType (to_any (Object item)) <> Some (TInt ik) ->
     typedIncrement ik c now k n = (c, (0, Some (errNotAn k (Num.name ik)))) /\
     typedDecrement ik c now k n = (c, (0, Some (errNotAn k (Num.name ik))))) /\
  (forall n, dynType (to_any (Object item)) <> Some TFloat32 ->
     cache_IncrementFloat32 c now k n
       = (c, (S754_zero false, Some (errNotAn k "float32"))) /\
     cache_DecrementFloat32 c now k n
       = (c, (S754_zero false, Some (errNotAn k "float32")))) /\
  (forall n, dynType (to_any (Object item)) <> Some TFloat64 ->
     cache_IncrementFloat64 c now k n
       = (c, (S754_zero false, Some (errNotAn k "float64"))) /\
     cache_DecrementFloat64 c now k n
       = (c, (S754_zero false, Some (errNotAn k "float64")))).
Proof.
  intros Hk Hlive. split; [| split].
  - intros ik n Hty.
    rewrite typedIncrement_incrementInteger, typedDecrement_decrementInteger.
    assert (Has : asInt ik (to_any (Object item)) = None).
    { destruct (to_any (Object item)) as [| ik' z | | | |]; try done.
      simpl in *. destruct (decide (ik' = ik)) as [-> |]; [done | done]. }
    split; by apply (incrementTyped_wrong_type _ _ _ _ _ c now k item).
  - intros n Hty.
    assert (Has : asFloat32 (to_any (Object item)) = None).
    { by destruct (to_any (Object item)). }
    split; by apply (incrementTyped_wrong_type _ _ _ _ _ c now k item).
  - intros n Hty.
    assert (Has : asFloat64 (to_any (Object item)) = None).
    { by destruct (to_any (Object item)). }
    split; by apply (incrementTyped_wrong_type _ _ _ _ _ c now k item).
Qed.

(** X18. On a key whose entry is present, not expired and of the numeric
    type of the specialization, each typed decrement returns the old
    value minus [n] with no error, and stores it in the entry of [k]
    under the expiration the entry had; nothing else in the cache
    changes.  For an integer type the difference [nv] is the value of the
    type congruent to [old - n] modulo 2 to the width, hence the integer
    [old - n] itself whenever that is a value of the type; for the
    floating-point types it is the IEEE 754 difference. *)
Theorem typed_decrement_subtracts_in_place c now k item :
  items c !! k = Some item -> Item_Expired item now = false ->
  (forall ik old n, to_any (Object item) = DInt ik old ->
     exists (nv : Z) x',
       Num.in_range ik nv /\
       nv mod 2 ^ Num.bits ik = (old - n) mod 2 ^ Num.bits ik /\
       (Num.in_range ik (old - n) -> nv = old - n) /\
       to_any x' = DInt ik nv /\
       typedDecrement ik c now k n
       = (with_items c (<[k := mkItem x' (Expiration item)]> (items c)),
          (nv, None))) /\
  (forall old n, to_any (Object item) = DFloat32 old ->
     exists x',
       to_any x' = DFloat32 (SFsub 24 128 old n) /\
       cache_DecrementFloat32 c now k n
       = (with_items c (<[k := mkItem x' (Expiration item)]> (items c)),
          (SFsub 24 128 old n, None))) /\
  (forall old n, to_any (Object item) = DFloat64 old ->
     exists x',
       to_any x' = DFloat64 (SFsub 53 1024 old n) /\
       cache_DecrementFloat64 c now k n
       = (with_items c (<[k := mkItem x' (Expiration item)]> (items c)),
          (SFsub 53 1024 old n, None))).
Proof.
  intros Hk Hlive. split; [| split].
  - intros ik old n Hold. rewrite typedDecrement_decrementInteger.
    destruct (incrementTyped_stores (asInt ik) (DInt ik) (Num.sub ik) 0
                (Num.name ik) c now k item old n Hk Hlive)
      as (x' & Hx' & Hdec).
    { rewrite Hold. simpl. by rewrite decide_True. }
    { done. }
    { by rewrite Hold. }
    exists (Num.sub ik old n), x'. unfold Num.sub in *.
    split; [apply wrap_range |]. split; [apply wrap_mod |].
    split; [apply wrap_in_range |]. done.
  - intros old n Hold.
    apply (incrementTyped_stores asFloat32 DFloat32 Num.sub32);
      rewrite ?Hold; done.
  - intros old n Hold.
    apply (incrementTyped_stores asFloat64 DFloat64 Num.sub64);
      rewrite ?Hold; done.
Qed.

(** X19. Incrementing an integer entry by [n] and decrementing it by [n]
    again, both before it expires, returns the old value from the
    decrement and leaves the entry with the old value and the old
    expiration, whether the sum wrapped around or not. *)
Theorem typed_increment_decrement_round_trip c now now' k item ik old n :
  items c !! k = Some item ->
  Item_Expired item now = false -> Item_Expired item now' = false ->
  to_any (Object item) = DInt ik old -> Num.in_range ik old ->
  exists x' x'',
    typedIncrement ik c now k n
    = (with_items c (<[k := mkItem x' (Expiration item)]> (items c)),
       (Num.add ik old n, None)) /\
    typedDecrement ik
      (with_items c (<[k := mkItem x' (Expiration item)]> (items c))) now' k n
    = (with_items c (<[k := mkItem x'' (Expiration item)]> (items c)),
       (old, None)) /\
    to_any x'' = DInt ik old.
Proof.
  intros Hk Hlive Hlive' Hold Hrange.
  rewrite typedIncrement_incrementInteger.
  destruct (incrementTyped_stores (asInt ik) (DInt ik) (Num.add ik) 0
              (Num.name ik) c now k item old n Hk Hlive)
    as (x' & Hx' & Hinc).
  { rewrite Hold. simpl. by rewrite decide_True. }
  { done. }
  { by rewrite Hold. }
  fold (incrementInteger (Callback := Callback) ik) in Hinc.
  set (c1 := with_items c (<[k := mkItem x' (Expiration item)]> (items c))) in *.
  assert (Hk1 : items c1 !! k = Some (mkItem x' (Expiration item))).
  { subst c1. simpl. apply lookup_insert_eq. }
  rewrite typedDecrement_decrementInteger.
  destruct (incrementTyped_stores (asInt ik) (DInt ik) (Num.sub ik) 0
              (Num.name ik) c1 now' k (mkItem x' (Expiration item))
              (Num.add ik old n) n Hk1 Hlive')
    as (x'' & Hx'' & Hdec).
  { simpl. rewrite Hx'. simpl. by rewrite decide_True. }
  { done. }
  { simpl. by rewrite Hx'. }
  simpl Expiration in Hdec.
  fold (decrementTyped (Callback := Callback) (asInt ik) (DInt ik) (Num.sub ik)
          0 (Num.name ik)) in Hdec.
  fold (decrementInteger (Callback := Callback) ik) in Hdec.
  rewrite add_sub_cancel, (wrap_in_range ik old Hrange) in Hx'', Hdec.
  exists x', x''. split; [done |]. split; [| done].
  subst c1. rewrite Hdec. unfold with_items. simpl.
  by rewrite insert_insert_eq.
Qed.

(** X20. On an integer entry that is present and not expired the generic
    [Increment(k, n)] and [Decrement(k, n)] return no error and leave the
    cache that the typed increment and decrement of the stored type
    leave for [n] converted to that type; the typed ones return the new
    value in addition. *)
Theorem cache_Increment_Decrement_narrow c now k item ik old n :
  items c !! k = Some item -> Item_Expired item now = false ->
  to_any (Object item) = DInt ik old ->
  cache_Increment c now k n
    = ((typedIncrement ik c now k (Num.wrap ik n)).1, None) /\
  (typedIncrement ik c now k (Num.wrap ik n)).2
    = (Num.add ik old (Num.wrap ik n), None) /\
  cache_Decrement c now k n
    = ((typedDecrement ik c now k (Num.wrap ik n)).1, None) /\
  (typedDecrement ik c now k (Num.wrap ik n)).2
    = (Num.sub ik old (Num.wrap ik n), None).
Proof.
  intros Hk Hlive Hold.
  rewrite typedIncrement_incrementInteger, typedDecrement_decrementInteger.
  unfold cache_Increment, cache_Decrement, decrementInteger, decrementTyped,
    incrementInteger, incrementTyped.
  rewrite Hk, Hlive, Hold. simpl. by rewrite decide_True.
Qed.

(** X21. The generic [Increment] and [Decrement] on a key that is absent
    or whose entry is expired return an error and leave the cache as it
    was; the error of [Increment] names the key, the one of [Decrement]
    does not.  On an entry that is present and not expired but not
    numeric both return "the value for k is not an integer" and leave
    the cache as it was. *)
Theorem cache_Increment_Decrement_errors c now k n :
  (items c !! k = None \/
   (exists item, items c !! k = Some item /\ Item_Expired item now = true) ->
   cache_Increment c now k n = (c, Some (errNotFound k)) /\
   cache_Decrement c now k n = (c, Some "item not found"%string)) /\
  (forall item, items c !! k = Some item -> Item_Expired item now = false ->
     numeric (to_any (Object item)) = false ->
     cache_Increment c now k n = (c, Some (errNotInteger k)) /\
     cache_Decrement c now k n = (c, Some (errNotInteger k))).
Proof.
  unfold cache_Increment, cache_Decrement. split.
  - intros [-> | (item & -> & ->)]; done.
  - intros item -> -> Hnum. by destruct (to_any (Object item)).
Qed.

(** X22. On an integer entry that is present and not expired,
    [Decrement(k, n)] does what [Increment(k, -n)] does, the negation
    taken in [int64], for the unsigned types as for the signed ones. *)
Theorem cache_Decrement_is_Increment_negated c now k item ik old n :
  items c !! k = Some item -> Item_Expired item now = false ->
  to_any (Object item) = DInt ik old ->
  cache_Decrement c now k n = cache_Increment c now k (Num.wrap_signed 64 (- n)).
Proof.
  intros Hk Hlive Hold. unfold cache_Increment, cache_Decrement.
  rewrite Hk, Hlive, Hold. by rewrite sub_is_add_negated.
Qed.

(** ** OnEvicted *)


(** ** The janitor beside the clients *)

Implicit Types s : @jstate T Callback.

(** X24. While the janitor sweeps and the clients call, an entry without
    expiration that no client call addresses stays in the cache with its
    value, so [Get] finds it at the end at every clock reading; and the
    janitor has run one [DeleteExpired] for each tick it received. *)
Theorem system_run_keeps_unexpiring s es s' k v :
  system_run s es s' ->
  items (j_cache s) !! k = Some (mkItem v 0) ->
  Forall (fun e => forall o, e = Client o -> addresses k o = false) es ->
  (forall now, cache_Get (j_cache s') now k = (j_cache s', (v, true))) /\
  j_sweeps s'
  = (j_sweeps s + length (filter (fun e => isTick e = true) es))%nat.
Proof.
  intros Hrun. induction Hrun as [s | s e s1 es s2 Hstep _ IH]; intros Hk Hes.
  - split; [| by rewrite filter_nil, Nat.add_0_r].
    intros now. by apply cache_Get_never.
  - apply Forall_cons in Hes as [He Hes].
    destruct Hstep as [s e s1 Hj | ctl c calls n o].
    + destruct Hj as [c calls n t | c calls n]; cbn [j_cache j_sweeps fst] in *.
      * destruct IH as [Hget Hn]; [| done |].
        { by apply cache_DeleteExpired_kept. }
        split; [done |]. rewrite Hn.
        rewrite filter_cons_True by done. simpl. lia.
      * destruct IH as [Hget Hn]; [done | done |].
        split; [done |]. rewrite Hn.
        by rewrite filter_cons_False.
    + cbn [j_cache j_sweeps] in *. destruct IH as [Hget Hn]; [| done |].
      { apply exec_keeps_never; [| done]. by apply He. }
      split; [done |]. rewrite Hn.
      by rewrite filter_cons_False.
Qed.

End Further.

(** ** Fixed-width sums *)

(** Without overflow the sum of the type is the sum of the integers. *)
Lemma Num_add_in_range ik a b :
  Num.in_range ik (a + b) -> Num.add ik a b = a + b.
Proof.
  unfold Num.add, Num.wrap, Num.in_range, Num.wrap_signed, Num.wrap_unsigned.
  destruct ik; simpl; intros H; rewrite Z.mod_small; lia.
Qed.

(** It wraps around otherwise. *)
Example Num_add_wraps : Num.add Num.Kint8 127 1 = -128.
Proof. reflexivity. Qed.

(** * Concrete runs *)

Module Runs.
Import Demo.

Example get_at_expiration : (cache_Get cTtl 1050 "a").2 = (7, true).
Proof. reflexivity. Qed.

Example get_after_expiration : (cache_Get cTtl 1051 "a").2 = (0, false).
Proof. reflexivity. Qed.

Example count_is_lazy : (cache_ItemCount cTtl).2 = 1%nat.
Proof. reflexivity. Qed.

Example sweep_removes :
  (cache_ItemCount (cache_DeleteExpired cTtl 1051).1).2 = 0%nat.
Proof. vm_compute. reflexivity. Qed.

Example increment_counter :
  (cache_IncrementInt cCounter 1200 "x" 5).2 = (15, None)
  /\ items (cache_IncrementInt cCounter 1200 "x" 5).1 !! "x"
     = Some (mkItem 15 1500).
Proof. split; reflexivity. Qed.

Example increment_expired :
  (cache_IncrementInt cCounter 1501 "x" 5).2 = (0, Some (errNotFound "x")).
Proof. reflexivity. Qed.

Example increment_wrong_type :
  (cache_IncrementInt8 cCounter 1200 "x" 5).2
  = (0, Some "the value for x is not an int8"%string).
Proof. reflexivity. Qed.

Example sweep_calls_back :
  (cache_DeleteExpired (cache_OnEvicted cTtl (Some 1%nat)) 1051).2
  = [Call 1%nat "a"%string 7].
Proof. vm_compute. reflexivity. Qed.

(** An instant beyond what [int64] holds is stored as a negative number.
    [Get] takes a negative expiration for no expiration, [Expired] for an
    instant in the past: the two tests agree on the expirations that are
    not negative only ([Item_Expired_inline]). *)
Example set_overflows :
  items (cache_Set c0 (2 ^ 62) "a" 7 (2 ^ 63 - 1)) !! "a"
  = Some (mkItem 7 (- 2 ^ 62 - 1))
  /\ (cache_Get (cache_Set c0 (2 ^ 62) "a" 7 (2 ^ 63 - 1)) (2 ^ 62) "a").2
     = (7, true)
  /\ Item_Expired (mkItem 7 (- 2 ^ 62 - 1)) (2 ^ 62) = true.
Proof. repeat split; reflexivity. Qed.

(** With a clock that reads 10ns before the Unix epoch, the instant 10ns
    later is 0, the encoding of no expiration. *)
Example set_before_epoch :
  items (cache_Set c0 (-10) "a" 7 10) !! "a" = Some (mkItem 7 0).
Proof. reflexivity. Qed.

(** [Replace] and [Add] on an expired entry. *)
Example replace_expired :
  cache_Replace cTtl 1051 1051 "a" 8 NoExpiration
  = (cTtl, Some "item a doesn't exist"%string).
Proof. reflexivity. Qed.

Example add_expired :
  (cache_Add cTtl 1051 1052 "a" 8 20).2 = None
  /\ items (cache_Add cTtl 1051 1052 "a" 8 20).1 !! "a"
     = Some (mkItem 8 1072).
Proof. split; reflexivity. Qed.

Example items_skips_expired :
  (cache_Items (cache_Set cTtl 1000 "b" 1 NoExpiration) 1051).2
  = {[ "b"%string := mkItem 1 0 ]}.
Proof. vm_compute. reflexivity. Qed.

Lemma cache_Get_after_Set_ttl_witness :
  (cache_Get cTtl 1050 "a" = (cTtl, (7, true))) /\
  (cache_Get cTtl 1051 "a" = (cTtl, (0, false))).
Proof.
  split.
  - exact (proj1 (cache_Get_after_Set_ttl c0 1000 1050 "a" 7 50
             ltac:(unfold Num.is_int64; lia) ltac:(unfold Num.is_int64; lia)
             ltac:(unfold Num.is_int64; lia) ltac:(lia) ltac:(lia))
             ltac:(lia)).
  - exact (proj2 (cache_Get_after_Set_ttl c0 1000 1051 "a" 7 50
             ltac:(unfold Num.is_int64; lia) ltac:(unfold Num.is_int64; lia)
             ltac:(unfold Num.is_int64; lia) ltac:(lia) ltac:(lia))
             ltac:(lia)).
Defined.

Lemma cache_Set_NoExpiration_forever_witness :
  cache_Get (execs cNever later) (2 ^ 62) "a" = (execs cNever later, (7, true)).
Proof.
  apply (cache_Set_NoExpiration_forever c0 1000 "a" 7).
  unfold later. repeat constructor.
Defined.

Lemma cache_Add_exists_or_sets_witness :
  (cache_Add cNever 2000 2001 "a" 8 NoExpiration
   = (cNever, Some (errAlreadyExists "a")) /\
   items (cache_Add cNever 2000 2001 "a" 8 NoExpiration).1 !! "a"
   = Some (mkItem 7 0)) /\
  cache_Add cTtl 2000 2001 "a" 8 NoExpiration
  = (cache_Set cTtl 2001 "a" 8 NoExpiration, None).
Proof.
  split.
  - apply (proj1 (cache_Add_exists_or_sets cNever 2000 2001 "a" 8 NoExpiration));
      reflexivity.
  - apply (proj2 (cache_Add_exists_or_sets cTtl 2000 2001 "a" 8 NoExpiration)).
    right. exists (mkItem 7 1050). split; reflexivity.
Defined.

Lemma typed_increment_adds_in_place_witness :
  cache_IncrementInt cCounter 1200 "x" 5
  = (with_items cCounter (<["x" := mkItem 15 1500]> (items cCounter)),
     (15, None)).
Proof.
  destruct (proj1 (typed_increment_adds_in_place (GT := intType) cCounter 1200
                     "x" (mkItem 10 1500) eq_refl eq_refl)
              Num.Kint 10 5 eq_refl)
    as (nv & x' & _ & _ & Hsum & Hx' & Hinc).
  assert (Hnv : nv = 10 + 5).
  { apply Hsum. unfold Num.in_range. simpl. lia. }
  injection Hx' as ->. subst nv. exact Hinc.
Defined.

Lemma cache_Get_expired_lazy_witness :
  cache_Get cTtl 1051 "a" = (cTtl, (0, false)) /\
  items (cache_Get cTtl 1051 "a").1 !! "a" = Some (mkItem 7 1050).
Proof.
  exact (proj1 cache_Get_expired_lazy cTtl 1051 "a" (mkItem 7 1050)
           eq_refl eq_refl).
Defined.

Lemma cache_Delete_calls_once_Flush_never_witness :
  cache_Delete cWatched "a"
  = (with_items cWatched (delete "a" (items cWatched)),
     [Call 1%nat "a"%string 7]).
Proof.
  apply (proj1 cache_Delete_calls_once_Flush_never cWatched "a" (mkItem 7 0) 1%nat);
    reflexivity.
Defined.

Lemma cache_Load_merges_or_fails_witness :
  (items (cache_Load unit decodeOk cNever (fun _ => 3000) tt).1 !! "a"
   = Some (mkItem 7 0) /\
   items (cache_Load unit decodeOk cNever (fun _ => 3000) tt).1 !! "b"
   = Some (mkItem 80 0)) /\
  cache_Load unit decodeFails cNever (fun _ => 3000) tt
  = (cNever, Some "unexpected EOF"%string).
Proof.
  split; [split |].
  - apply (proj1 (proj2 (proj1 (cache_Load_merges_or_fails unit decodeOk cNever
                                 (fun _ => 3000) tt) incoming eq_refl))
             "a" (mkItem 70 0) (mkItem 7 0)); reflexivity.
  - apply (proj1 (proj2 (proj2 (proj1 (cache_Load_merges_or_fails unit decodeOk
                                         cNever (fun _ => 3000) tt)
                                  incoming eq_refl)))
             "b" (mkItem 80 0)); [reflexivity | left; reflexivity].
  - apply (proj2 (cache_Load_merges_or_fails unit decodeFails cNever
                    (fun _ => 3000) tt) ∅ "unexpected EOF"%string).
    reflexivity.
Defined.

Lemma New_nonpositive_default_never_witness :
  defaultExpiration (embedded CNeg) < 0 /\
  cache_SetDefault (embedded CNeg) 1000 "a" 7
  = cache_Set (embedded CNeg) 1000 "a" 7 DefaultExpiration /\
  items (cache_SetDefault (embedded CNeg) 1000 "a" 7) !! "a"
  = Some (mkItem 7 0) /\
  (forall (os : list op) now,
     Forall (fun o => addresses "a" o = false) os ->
     cache_Get (execs (cache_SetDefault (embedded CNeg) 1000 "a" 7) os) now "a"
     = (execs (cache_SetDefault (embedded CNeg) 1000 "a" 7) os, (7, true))).
Proof.
  apply (New_nonpositive_default_never (-5) 0 ∅ 1000 "a" 7 ltac:(lia) CNeg).
  left. reflexivity.
Defined.

Lemma janitor_stopped_is_terminal_witness :
  j_control j3 = Returned /\
  Forall isClient afterStop /\
  exists s1, system_run j0 beforeStop s1 /\
             j_sweeps j3 = j_sweeps s1 /\ j_calls j3 = j_calls s1.
Proof.
  apply (proj2 (proj2 janitor_stopped_is_terminal) j0 beforeStop afterStop j3).
  apply (Run_cons j0 _ j0b); [apply Sys_client |].
  apply (Run_cons j0b _ j1); [apply Sys_janitor, Run_tick |].
  apply (Run_cons j1 _ j2); [apply Sys_janitor, Run_stop |].
  apply (Run_cons j2 _ j2b); [apply (Sys_client Returned) |].
  apply (Run_cons j2b _ j3); [apply (Sys_client Returned) | apply Run_nil].
Defined.

Lemma cache_Set_negative_never_witness :
  cache_Set c0 1000 "a" 7 (-7)
  = with_items c0 (<["a" := mkItem 7 0]> (items c0)) /\
  cache_set c0 1000 "a" 7 (-7)
  = with_items c0 (<["a" := mkItem 7 0]> (items c0)) /\
  forall now, cache_Get (cache_Set c0 1000 "a" 7 (-7)) now "a"
              = (cache_Set c0 1000 "a" 7 (-7), (7, true)).
Proof.
  apply (proj1 (cache_Set_negative_never c0 1000 "a" 7 (-7))). lia.
Defined.

End Runs.

(** * Concrete runs of the further properties *)

Module MoreRuns.
Import Demo.

Example increment_wraps :
  (cache_IncrementInt cMax 2000 "x" 1).2 = (- 2 ^ 63, None).
Proof. vm_compute. reflexivity. Qed.

Example generic_increment_int8 :
  Num.add Num.Kint8 100 (Num.wrap Num.Kint8 300) = - 112.
Proof. reflexivity. Qed.

Example decrement_missing_has_no_key :
  cache_Decrement cCounter 1200 "zz" 1 = (cCounter, Some "item not found"%string)
  /\ cache_Increment cCounter 1200 "zz" 1
     = (cCounter, Some "item zz not found"%string).
Proof. split; reflexivity. Qed.

(** [Load] of data with an entry for ["a"] overwrites the expired entry
    of ["a"], which [Get] then finds again: [Load] addresses the keys it
    decodes. *)
Example load_overwrites_expired :
  (cache_Get cTtl 3000 "a").2 = (0, false)
  /\ (cache_Get (cache_Load unit decodeOk cTtl (fun _ => 3000) tt).1 3000 "a").2
     = (70, true).
Proof. split; reflexivity. Qed.

Lemma exec_frame_witness :
  items (exec cTtl setB) !! "a" = items cTtl !! "a" /\
  items (exec cTtl (OpDeleteExpired 1051)) !! "a" = None.
Proof.
  split.
  - refine (proj1 (exec_frame cTtl setB "a" eq_refl) _). discriminate.
  - exact (proj2 (exec_frame cTtl (OpDeleteExpired 1051) "a" eq_refl)
             1051 eq_refl).
Defined.

Lemma live_entry_survives_witness :
  cache_Get (lexecs unit decodeB cTtl earlyL) 1040 "a"
  = (lexecs unit decodeB cTtl earlyL, (7, true)).
Proof.
  refine (live_entry_survives unit decodeB earlyL cTtl "a" (mkItem 7 1050) 1040
            eq_refl eq_refl _ _).
  - unfold earlyL. repeat constructor.
  - unfold lsweepsBy, earlyL. repeat constructor. lia.
Defined.

Lemma expired_entry_stays_gone_witness :
  cache_Get (lexecs unit decodeB cTtl laterL) 8000 "a"
  = (lexecs unit decodeB cTtl laterL, (0, false)).
Proof.
  refine (expired_entry_stays_gone unit decodeB laterL cTtl "a" (mkItem 7 1050)
            1051 8000 eq_refl eq_refl _ _).
  - lia.
  - unfold laterL. repeat constructor.
Defined.

Lemma cache_Replace_missing_or_sets_witness :
  cache_Replace cTtl 1051 1052 "a" 8 NoExpiration
  = (cTtl, Some (errDoesntExist "a")) /\
  cache_Replace cNever 1051 1052 "a" 8 20
  = (cache_Set cNever 1052 "a" 8 20, None).
Proof.
  split.
  - apply (proj1 (cache_Replace_missing_or_sets cTtl 1051 1052 "a" 8 NoExpiration)).
    right. exists (mkItem 7 1050). split; reflexivity.
  - exact (proj2 (cache_Replace_missing_or_sets cNever 1051 1052 "a" 8 20)
             (mkItem 7 0) eq_refl eq_refl).
Defined.

Lemma cache_GetWithExpiration_agrees_witness :
  (cache_GetWithExpiration cTtl 1040 "a").2.2 = true /\ 0 < 1050 /\
  exists item, items cTtl !! "a" = Some item /\ Expiration item = 1050.
Proof.
  exact (proj1 (proj2 (proj2 (proj2 (cache_GetWithExpiration_agrees cTtl 1040 "a")))
                  1050) eq_refl).
Defined.

Lemma cache_GetWithExpiration_after_Set_witness :
  cache_GetWithExpiration cTtl 1040 "a"
  = (cTtl, (DInt Num.Kint 7, Time_Unix (1000 + 50), true)).
Proof.
  refine (proj1 (cache_GetWithExpiration_after_Set c0 1000 1040 "a" 7 50)
            _ _ _ _ _); unfold Num.is_int64; lia.
Defined.

Lemma cache_Set_frame_count_witness :
  (cache_Get (cache_Set cTtl 1100 "b" 1 10) 1040 "a").2
  = (cache_Get cTtl 1040 "a").2.
Proof.
  refine (proj1 (cache_Set_frame_count cTtl 1100 "b" 1 10) "a" 1040 _).
  discriminate.
Defined.

Lemma cache_Delete_removes_witness : (cache_Delete cWatched "zz").2 = [].
Proof.
  refine (proj1 (proj2 (proj2 (proj2 (cache_Delete_removes cWatched "zz")))) _).
  left. reflexivity.
Defined.

Lemma cache_DeleteExpired_twice_witness :
  cache_DeleteExpired (cache_DeleteExpired cTtl 2000).1 1500
  = ((cache_DeleteExpired cTtl 2000).1, []).
Proof.
  refine (proj2 (cache_DeleteExpired_twice cTtl 2000 1500) _). lia.
Defined.

Lemma cache_Items_snapshot_witness :
  items cTtl !! "a" = Some (mkItem 7 1050) /\
  expiredInline (mkItem 7 1050) 1040 = false.
Proof.
  refine (proj1 (proj1 (proj2 (cache_Items_snapshot cTtl 1040)) "a" (mkItem 7 1050)) _).
  vm_compute. reflexivity.
Defined.

Lemma NewFrom_Items_round_trip_witness :
  (cache_Get (Callback := nat)
     (embedded (NewFrom 0 0 (cache_Items cTtl 1040).2)) 1045 "a").2
  = (cache_Get cTtl 1045 "a").2.
Proof.
  refine (NewFrom_Items_round_trip cTtl 1040 1045 0 0 "a" _). lia.
Defined.

Lemma cache_Load_fresh_and_again_witness :
  (items c0 = ∅ -> items (cache_Load unit decodeOk c0 (fun _ => 3000) tt).1 = incoming) /\
  cache_Load unit decodeOk (cache_Load unit decodeOk c0 (fun _ => 3000) tt).1
    (fun _ => 3000) tt
  = cache_Load unit decodeOk c0 (fun _ => 3000) tt.
Proof.
  exact (cache_Load_fresh_and_again unit decodeOk c0 (fun _ => 3000) tt incoming
           eq_refl).
Defined.

Lemma typed_family_not_found_witness :
  (forall ik n,
     typedIncrement ik cCounter 1200 "zz" n
       = (cCounter, (0, Some (errNotFound "zz"))) /\
     typedDecrement ik cCounter 1200 "zz" n
       = (cCounter, (0, Some (errNotFound "zz")))) /\
  (forall n,
     cache_IncrementFloat32 cCounter 1200 "zz" n
       = (cCounter, (S754_zero false, Some (errNotFound "zz"))) /\
     cache_DecrementFloat32 cCounter 1200 "zz" n
       = (cCounter, (S754_zero false, Some (errNotFound "zz"))) /\
     cache_IncrementFloat64 cCounter 1200 "zz" n
       = (cCounter, (S754_zero false, Some (errNotFound "zz"))) /\
     cache_DecrementFloat64 cCounter 1200 "zz" n
       = (cCounter, (S754_zero false, Some (errNotFound "zz")))).
Proof.
  refine (typed_family_not_found cCounter 1200 "zz" _). left. reflexivity.
Defined.

Lemma typed_family_wrong_type_witness :
  cache_IncrementInt8 cCounter 1200 "x" 5
    = (cCounter, (0, Some (errNotAn "x" "int8"))) /\
  cache_DecrementInt8 cCounter 1200 "x" 5
    = (cCounter, (0, Some (errNotAn "x" "int8"))).
Proof.
  refine (proj1 (typed_family_wrong_type cCounter 1200 "x" (mkItem 10 1500)
                   eq_refl eq_refl) Num.Kint8 5 _).
  discriminate.
Defined.

Lemma typed_decrement_subtracts_in_place_witness :
  cache_DecrementInt cCounter 1200 "x" 3
  = (with_items cCounter (<["x" := mkItem 7 1500]> (items cCounter)),
     (7, None)).
Proof.
  destruct (proj1 (typed_decrement_subtracts_in_place (GT := intType) cCounter
                     1200 "x" (mkItem 10 1500) eq_refl eq_refl)
              Num.Kint 10 3 eq_refl)
    as (nv & x' & _ & _ & Hdiff & Hx' & Hdec).
  assert (Hnv : nv = 10 - 3).
  { apply Hdiff. unfold Num.in_range. simpl. lia. }
  injection Hx' as ->. subst nv. exact Hdec.
Defined.

Lemma typed_increment_decrement_round_trip_witness :
  exists x' x'' : Z,
    cache_IncrementInt cMax 2000 "x" 1
    = (with_items cMax (<["x" := mkItem x' 0]> (items cMax)),
       (Num.add Num.Kint (2 ^ 63 - 1) 1, None)) /\
    cache_DecrementInt
      (with_items cMax (<["x" := mkItem x' 0]> (items cMax))) 3000 "x" 1
    = (with_items cMax (<["x" := mkItem x'' 0]> (items cMax)),
       (2 ^ 63 - 1, None)) /\
    to_any x'' = DInt Num.Kint (2 ^ 63 - 1).
Proof.
  refine (typed_increment_decrement_round_trip cMax 2000 3000 "x"
            (mkItem (2 ^ 63 - 1) 0) Num.Kint (2 ^ 63 - 1) 1
            eq_refl eq_refl eq_refl eq_refl _).
  unfold Num.in_range. simpl. lia.
Defined.

Lemma cache_Increment_Decrement_narrow_witness :
  cache_Increment cCounter 1200 "x" 5
    = ((cache_IncrementInt cCounter 1200 "x" (Num.wrap Num.Kint 5)).1, None) /\
  (cache_IncrementInt cCounter 1200 "x" (Num.wrap Num.Kint 5)).2
    = (Num.add Num.Kint 10 (Num.wrap Num.Kint 5), None) /\
  cache_Decrement cCounter 1200 "x" 5
    = ((cache_DecrementInt cCounter 1200 "x" (Num.wrap Num.Kint 5)).1, None) /\
  (cache_DecrementInt cCounter 1200 "x" (Num.wrap Num.Kint 5)).2
    = (Num.sub Num.Kint 10 (Num.wrap Num.Kint 5), None).
Proof.
  exact (cache_Increment_Decrement_narrow cCounter 1200 "x" (mkItem 10 1500)
           Num.Kint 10 5 eq_refl eq_refl eq_refl).
Defined.

Lemma cache_Increment_Decrement_errors_witness :
  cache_Increment cWords 1200 "w" 5 = (cWords, Some (errNotInteger "w")) /\
  cache_Decrement cWords 1200 "w" 5 = (cWords, Some (errNotInteger "w")).
Proof.
  exact (proj2 (cache_Increment_Decrement_errors cWords 1200 "w" 5)
           (mkItem "hello"%string 0) eq_refl eq_refl eq_refl).
Defined.

Lemma cache_Decrement_is_Increment_negated_witness :
  cache_Decrement cCounter 1200 "x" 5
  = cache_Increment cCounter 1200 "x" (Num.wrap_signed 64 (- 5)).
Proof.
  exact (cache_Decrement_is_Increment_negated cCounter 1200 "x" (mkItem 10 1500)
           Num.Kint 10 5 eq_refl eq_refl eq_refl).
Defined.


Lemma system_run_keeps_unexpiring_witness :
  (forall now, cache_Get (j_cache jn2) now "a" = (j_cache jn2, (7, true))) /\
  j_sweeps jn2
  = (j_sweeps jn0 + length (filter (fun e => isTick e = true) tickThenSet))%nat.
Proof.
  refine (system_run_keeps_unexpiring jn0 tickThenSet jn2 "a" 7 _ eq_refl _).
  - apply (Run_cons jn0 _ jn1); [apply Sys_janitor, Run_tick |].
    apply (Run_cons jn1 _ jn2); [apply Sys_client | apply Run_nil].
  - unfold tickThenSet. repeat constructor.
    + intros o [=].
    + intros o [= <-]. reflexivity.
Defined.

End MoreRuns.
